(** * CharacterQuilt backend: the LLM request gateway of [backend/main.py]

    A shallow embedding of the FastAPI handler [execute_llm_request] and of
    the Socket.IO handler [handle_function_result], with the Python string
    methods, container operations and exception flow they rely on, and the
    encoding of what they print. *)

From Stdlib Require Import String Ascii.
From Stdlib Require Import List ZArith NArith Lia Bool.
From Stdlib Require DecimalString.
Import ListNotations.

Set Implicit Arguments.
Set Warnings "-register-all".

(** ** Python strings

    A Python [str] is a sequence of Unicode code points. *)

Definition char := N.
Definition str := list char.

(** An ASCII literal as a [str]. *)
Definition lit (s : string) : str :=
  map N_of_ascii (list_ascii_of_string s).
Arguments lit s%_string.

Definition dquote : str := [34%N].
Definition newline : str := [10%N].

Fixpoint str_eqb (a b : str) : bool :=
  match a, b with
  | [], [] => true
  | x :: a', y :: b' => (x =? y)%N && str_eqb a' b'
  | _, _ => false
  end.

(** [str.isspace] on one code point: the characters CPython's
    [Py_UNICODE_ISSPACE] accepts. *)
Definition isspace (c : char) : bool :=
  (((9 <=? c) && (c <=? 13)) || ((28 <=? c) && (c <=? 32))
   || (c =? 133) || (c =? 160) || (c =? 5760)
   || ((8192 <=? c) && (c <=? 8202))
   || (c =? 8232) || (c =? 8233) || (c =? 8239) || (c =? 8287)
   || (c =? 12288))%N.

Fixpoint lstrip (s : str) : str :=
  match s with
  | [] => []
  | c :: t => if isspace c then lstrip t else s
  end.

Definition rstrip (s : str) : str := rev (lstrip (rev s)).

(** [s.strip()] *)
Definition strip (s : str) : str := rstrip (lstrip s).

(** [s[:1] == c] for a character [c]. *)
Definition head_is (c : char) (s : str) : bool :=
  match s with
  | a :: _ => (a =? c)%N
  | [] => false
  end.
Arguments head_is c%_N s.

(** [s.startswith(p)] *)
Fixpoint startswith (s p : str) : bool :=
  match p, s with
  | [], _ => true
  | _ :: _, [] => false
  | a :: p', b :: s' => (a =? b)%N && startswith s' p'
  end.

(** [sub in s] for two strings. *)
Fixpoint contains (s sub : str) : bool :=
  startswith s sub ||
  match s with
  | [] => false
  | _ :: t => contains t sub
  end.

(** The scan of [s.replace(old, new)] for a non-empty [old]: left to right,
    non-overlapping.  [skip] counts the characters of a match still to be
    dropped. *)
Fixpoint replace_from (old new : str) (skip : nat) (s : str) : str :=
  match s with
  | [] => []
  | c :: t =>
      match skip with
      | S k => replace_from old new k t
      | O =>
          if startswith s old
          then new ++ replace_from old new (length old - 1) t
          else c :: replace_from old new 0 t
      end
  end.

(** [s.replace(old, new)]; an empty [old] matches before every character and
    at the end. *)
Definition replace (s old new : str) : str :=
  match old with
  | [] => new ++ flat_map (fun c => c :: new) s
  | _ :: _ => replace_from old new 0 s
  end.

(** [repr(z)] for an [int], and for a natural number. *)
Definition int_repr (z : Z) : str :=
  lit (DecimalString.NilZero.string_of_int (Z.to_int z)).

Definition nat_repr (n : nat) : str := int_repr (Z.of_nat n).

Definition hex_digit (n : N) : char :=
  (if n <? 10 then 48 + n else 87 + n)%N.

(** [format(n, '04x')] for [n < 0x10000]. *)
Definition hex4 (n : N) : str :=
  [ hex_digit (N.shiftr n 12 mod 16); hex_digit (N.shiftr n 8 mod 16);
    hex_digit (N.shiftr n 4 mod 16); hex_digit (n mod 16) ]%N.

(** *** The encoding of the standard output

    The standard output encodes what is written to it, as UTF-8 here.
    UTF-8 has no encoding of a surrogate, a code point from U+D800 to
    U+DFFF, and the codec turns to the error handler of the stream,
    [sys.stdout.errors]: [strict], or [surrogateescape] when the
    interpreter runs in the C locale. *)

Inductive error_handler : Type :=
| strict
| surrogateescape.

Definition is_surrogate (c : char) : bool :=
  ((55296 <=? c) && (c <=? 57343))%N.

(** The surrogates [surrogateescape] writes as the byte they stand for,
    U+DC80 to U+DCFF; [strict] takes none. *)
Definition escapes (errors : error_handler) (c : char) : bool :=
  match errors with
  | strict => false
  | surrogateescape => ((56448 <=? c) && (c <=? 56575))%N
  end.

(** A character the codec cannot encode and the handler does not take. *)
Definition refused (errors : error_handler) (c : char) : bool :=
  is_surrogate c && negb (escapes errors c).

(** [s.encode('utf-8', errors)] succeeds. *)
Definition encodable (errors : error_handler) (s : str) : bool :=
  forallb (fun c => negb (refused errors c)) s.

(** The first refused character of a text: its position, and the text from
    it on. *)
Fixpoint first_refused (errors : error_handler) (pos : nat) (s : str)
  : option (nat * str) :=
  match s with
  | [] => None
  | c :: t =>
      if refused errors c then Some (pos, s)
      else first_refused errors (S pos) t
  end.

(** The number of surrogates a text starts with. *)
Fixpoint surrogate_run (s : str) : nat :=
  match s with
  | c :: t => if is_surrogate c then S (surrogate_run t) else 0
  | [] => 0
  end.

(** ** Python values

    The objects [json.loads] builds and [json.dumps] prints.  A [dict] keeps
    its insertion order; its keys are strings.  The float type is left
    abstract: the handlers never compute with one. *)

Section Values.
Variable float : Type.

Inductive value : Type :=
| VNone
| VBool (b : bool)
| VInt (z : Z)
| VFloat (x : float)
| VStr (s : str)
| VList (l : list value)
| VDict (d : list (str * value)).

(** [d.get(k)] on the items of a dict. *)
Fixpoint dict_get (d : list (str * value)) (k : str) : option value :=
  match d with
  | [] => None
  | (k', v) :: d' => if str_eqb k k' then Some v else dict_get d' k
  end.

(** [d[k] = v]: an existing key keeps its position. *)
Fixpoint dict_set (d : list (str * value)) (k : str) (v : value)
  : list (str * value) :=
  match d with
  | [] => [(k, v)]
  | (k', v') :: d' =>
      if str_eqb k k' then (k', v) :: d' else (k', v') :: dict_set d' k v
  end.

(** [type(v).__name__] *)
Definition type_name (v : value) : str :=
  match v with
  | VNone => lit "NoneType"
  | VBool _ => lit "bool"
  | VInt _ => lit "int"
  | VFloat _ => lit "float"
  | VStr _ => lit "str"
  | VList _ => lit "list"
  | VDict _ => lit "dict"
  end.

(** [isinstance(v, list)] *)
Definition isinstance_list (v : value) : bool :=
  match v with
  | VList _ => true
  | _ => false
  end.

(** [s == v] for a string [s]: only an equal string is equal to it. *)
Definition str_eq_value (s : str) (v : value) : bool :=
  match v with
  | VStr t => str_eqb s t
  | _ => false
  end.

(** ** Exceptions and effects

    An exception (a subclass of [Exception]) is its class name and the
    text [str(e)] gives. *)
Record exn : Type := Exception { exn_class : str; exn_str : str }.

(** A Socket.IO emission: [sio.emit(event, data)]. *)
Record emission : Type := Emit { event : str; payload : value }.

(** A computation runs on the emissions made so far, raises or returns,
    and leaves the emissions made up to that point. *)
Definition M (A : Type) : Type :=
  list emission -> (exn + A) * list emission.

Definition ret {A} (a : A) : M A := fun tr => (inr a, tr).

Definition bind {A B} (m : M A) (k : A -> M B) : M B :=
  fun tr =>
    match m tr with
    | (inl e, tr') => (inl e, tr')
    | (inr a, tr') => k a tr'
    end.

Definition raise {A} (e : exn) : M A := fun tr => (inl e, tr).

(** A call into a library that raises or returns and emits nothing. *)
Definition call {A} (r : exn + A) : M A := fun tr => (r, tr).

(** [await sio.emit(event, data)] *)
Definition sio_emit (ev : str) (data : value) : M unit :=
  fun tr => (inr tt, tr ++ [Emit ev data]).

(** [try: body  except Exception as e: handler(e)] *)
Definition try_except {A} (body : M A) (handler : exn -> M A) : M A :=
  fun tr =>
    match body tr with
    | (inl e, tr') => handler e tr'
    | (inr a, tr') => (inr a, tr')
    end.

(** [for x in l: body(x)] *)
Fixpoint for_in {A} (l : list A) (body : A -> M unit) : M unit :=
  match l with
  | [] => ret tt
  | x :: l' => bind (body x) (fun _ => for_in l' body)
  end.

(** *** [print] *)

Variable errors : error_handler.

(** The exception the UTF-8 codec raises on [text]: it names the first
    refused character and the surrogates that follow it, one character by
    its escape and its position, a longer run by the positions of its first
    and last character. *)
Definition UnicodeEncodeError (text : str) : exn :=
  Exception (lit "UnicodeEncodeError")
    match first_refused errors 0 text with
    | Some (start, c :: rest) =>
        match surrogate_run rest with
        | O =>
            lit "'utf-8' codec can't encode character '\u" ++ hex4 c
              ++ lit "' in position " ++ nat_repr start
              ++ lit ": surrogates not allowed"
        | S n =>
            lit "'utf-8' codec can't encode characters in position "
              ++ nat_repr start ++ lit "-" ++ nat_repr (start + S n)
              ++ lit ": surrogates not allowed"
        end
    | _ => []
    end.

(** [sys.stdout.write(text)] *)
Definition stdout_write (text : str) : M unit :=
  if encodable errors text then ret tt else raise (UnicodeEncodeError text).

(** [print] of some arguments: they are written one after the other, each
    by a write of its own, with a space between two of them and a line
    break at the end, which always encode. *)
Definition py_print (args : list str) : M unit := for_in args stdout_write.

(** [print] of text that holds no surrogate: a literal of the
    program, the fields of the request, which came as a UTF-8 body, the
    text of the model's reply, which came decoded from the wire, and the
    text of an exception.  The standard output takes all of it. *)
Definition print_text (args : list str) : M unit := ret tt.

(** What [str(v)] hands to the standard output as it is.  Only a [str] goes
    out unchanged; the text of any other object is built by [repr], which
    writes a surrogate as its escape, and is always encodable: nothing of
    it needs to be kept. *)
Definition str_text (v : value) : str :=
  match v with
  | VStr s => s
  | _ => []
  end.

(** [print] accepts [str(v)]. *)
Definition printable (v : value) : bool := encodable errors (str_text v).

End Values.

Arguments VNone {float}.
Arguments VBool {float} b.
Arguments VInt {float} z.
Arguments VStr {float} s.
Arguments ret {float A} a.
Arguments raise {float A} e.
Arguments call {float A} r.
Arguments stdout_write {float} errors text.
Arguments py_print {float} errors args.
Arguments print_text {float} args.
Arguments str_text {float} v.
Arguments printable {float} errors v.

Declare Scope py_scope.
Delimit Scope py_scope with py.
Notation "x <- c ;; k" := (bind c (fun x => k))
  (at level 61, c at next level, right associativity) : py_scope.
Notation "c ;;; k" := (bind c (fun _ => k))
  (at level 61, right associativity) : py_scope.

(** [sep.join(parts)] *)
Fixpoint join (sep : str) (parts : list str) : str :=
  match parts with
  | [] => []
  | [p] => p
  | p :: rest => p ++ sep ++ join sep rest
  end.

(** ** The gateway

    The collaborators outside the repository are parameters: the Gemini
    client, and the [json] module of the standard library. *)

Section Gateway.
Variable float : Type.

Local Abbreviation value := (value float).
Local Abbreviation M := (M float).

Local Open Scope py_scope.

(** The error handler of the standard output. *)
Variable errors : error_handler.

(** [genai.configure(api_key=...)], [genai.GenerativeModel(...)],
    [model.generate_content(prompt)] and [response.text]: the text of the
    reply, or the exception one of them raised. *)
Variable generate_content : str -> str -> exn + str.

(** [json.dumps(obj, indent=2)] *)
Variable json_dumps : value -> str.

(** [json.loads(s)] *)
Variable json_loads : str -> exn + value.

(** *** Container operations of the handlers *)

(** [item in container] for a string [item]. *)
Definition py_contains (item : str) (container : value) : M bool :=
  match container with
  | VDict d =>
      ret (match dict_get d item with Some _ => true | None => false end)
  | VList l => ret (existsb (str_eq_value item) l)
  | VStr s => ret (contains s item)
  | _ =>
      raise (Exception (lit "TypeError")
               (lit "argument of type '" ++ type_name container
                  ++ lit "' is not iterable"))
  end.

(** [obj[key]] for a string [key] (one that [repr] prints between plain
    single quotes, as the keys of the handlers are). *)
Definition py_getitem (obj : value) (key : str) : M value :=
  match obj with
  | VDict d =>
      match dict_get d key with
      | Some v => ret v
      | None =>
          raise (Exception (lit "KeyError") (lit "'" ++ key ++ lit "'"))
      end
  | VList _ =>
      raise (Exception (lit "TypeError")
               (lit "list indices must be integers or slices, not str"))
  | VStr _ =>
      raise (Exception (lit "TypeError")
               (lit "string indices must be integers, not 'str'"))
  | _ =>
      raise (Exception (lit "TypeError")
               (lit "'" ++ type_name obj
                  ++ lit "' object is not subscriptable"))
  end.

(** [obj.get(key, default)] *)
Definition py_get (obj : value) (key : str) (default : value) : M value :=
  match obj with
  | VDict d =>
      ret (match dict_get d key with Some v => v | None => default end)
  | _ =>
      raise (Exception (lit "AttributeError")
               (lit "'" ++ type_name obj
                  ++ lit "' object has no attribute 'get'"))
  end.

(** *** The request *)

Record LLMRequest : Type := {
  data : list (str * value);
  message : str;
  apiKey : str
}.

(** *** The prompt *)

Definition indent : str := lit "        ".

(** The lines under [Available Functions:]. *)
Definition available_functions : list str :=
  [ lit "- update_cell(col, row, value): Updates the value of a specific cell.";
    lit "- remove_cell(col, row): Removes the value of a specific cell.";
    lit "- get_cell(col, row): Retrieves the value of a specific cell.";
    lit "- sum_col(col): Calculates the sum of a column.";
    lit "- avg_col(col): Calculates the average of a column.";
    lit "- count_col(col): Counts the number of non-empty cells in a column.";
    lit "- max_col(col): Finds the maximum value in a column.";
    lit "- min_col(col): Finds the minimum value in a column.";
    lit "- add_col(col): Adds a new column.";
    lit "- del_col(col): Deletes a column.";
    lit "- sum_row(row): Calculates the sum of a row.";
    lit "- avg_row(row): Calculates the average of a row.";
    lit "- count_row(row): Counts the number of non-empty cells in a row.";
    lit "- max_row(row): Finds the maximum value in a row.";
    lit "- min_row(row): Finds the minimum value in a row.";
    lit "- add_row(row): Adds a new row.";
    lit "- del_row(row): Deletes a row.";
    lit "- sum_range(startCol, startRow, endCol, endRow): Calculates the sum of a range of cells.";
    lit "- avg_range(startCol, startRow, endCol, endRow): Calculates the average of a range of cells.";
    lit "- clear_range(startCol, startRow, endCol, endRow): Clears a range of cells.";
    lit "- clear_all(): Clears the entire spreadsheet.";
    lit "- find_cell(value): Finds a cell with a specific value.";
    lit "- replace_all(oldValue, newValue): Replaces all occurrences of a value." ].

Definition role_statement : str :=
  lit "You are a spreadsheet assistant. Your goal is to help users by interpreting their requests and providing structured JSON responses. The user's request will be in the 'message' field. You have access to the current spreadsheet data and a set of functions you can use to manipulate the data.".

Definition user_message_line (msg : str) : str :=
  lit "User Message: " ++ dquote ++ msg ++ dquote.

Definition output_contract : list str :=
  [ lit "Your response must be a JSON object with two keys: 'message' and 'functions'.";
    lit "- 'message': A user-friendly message to be displayed in the chat.";
    lit "- 'functions': A list of function calls to be executed on the spreadsheet." ].

Definition example_response : list str :=
  [ lit "Example Response:";
    lit "{";
    lit "  " ++ dquote ++ lit "message" ++ dquote ++ lit ": " ++ dquote
      ++ lit "I have calculated the sum of column A and placed it in cell B1."
      ++ dquote ++ lit ",";
    lit "  " ++ dquote ++ lit "functions" ++ dquote ++ lit ": [" ++ dquote
      ++ lit "sum_col('A')" ++ dquote ++ lit ", " ++ dquote
      ++ lit "update_cell('B', 1, 'SUM_RESULT')" ++ dquote ++ lit "]";
    lit "}" ].

(** The lines of the f-string, the text between two line breaks each. *)
Definition prompt_lines (snapshot msg : str) : list str :=
  [ [];
    indent ++ role_statement;
    [];
    indent ++ lit "Spreadsheet Data:";
    indent ++ snapshot;
    [];
    indent ++ lit "Available Functions:" ]
  ++ map (app indent) available_functions
  ++ [ [];
       indent ++ user_message_line msg;
       [] ]
  ++ map (app indent) output_contract
  ++ [ [] ]
  ++ map (app indent) example_response
  ++ [ indent ].

(** The f-string assigned to [prompt]. *)
Definition prompt (request : LLMRequest) : str :=
  join newline
    (prompt_lines (json_dumps (VDict (data request))) (message request)).

(** *** [execute_llm_request] *)

(** [response.text.strip().replace('```json', '').replace('```', '').strip()] *)
Definition cleaned_response_text (text : str) : str :=
  strip (replace (replace (strip text) (lit "```json") []) (lit "```") []).

Definition success (msg : value) : value :=
  VDict [(lit "status", VStr (lit "success")); (lit "message", msg)].

Definition error (e : exn) : value :=
  VDict [(lit "status", VStr (lit "error")); (lit "message", VStr (exn_str e))].

(** [{'command': func_call}] *)
Definition command (func_call : value) : value :=
  VDict [(lit "command", func_call)].

(** The [for] loop over the function calls: each is logged, then sent. *)
Definition dispatch (functions : list value) : M unit :=
  for_in functions
    (fun func_call =>
       py_print errors [lit "Emitting command: " ++ str_text func_call] ;;;
       sio_emit (lit "execute_command") (command func_call)).

(** The body of the [try].  The exceptions are those [except Exception]
    catches.  What [json.loads] built can hold a lone surrogate, which the
    decoder makes of an escape such as [\ud83d]: the [print] of the parsed
    response and the one of each function call can raise. *)
Definition try_body (request : LLMRequest) : M value :=
  let prompt := prompt request in
  print_text [lit "Generated prompt for Gemini:" ++ newline; prompt] ;;;
  text <- call (generate_content (apiKey request) prompt) ;;
  print_text [lit "Received response from Gemini:" ++ newline; text] ;;;
  let cleaned_response_text := cleaned_response_text text in
  print_text [lit "Cleaned response text:" ++ newline;
              cleaned_response_text] ;;;
  response_json <- call (json_loads cleaned_response_text) ;;
  py_print errors [lit "Parsed JSON response:" ++ newline;
                   str_text response_json] ;;;
  present <- py_contains (lit "functions") response_json ;;
  is_list <- (if present : bool
              then functions <- py_getitem response_json (lit "functions") ;;
                   ret (isinstance_list functions)
              else ret false) ;;
  (if is_list : bool
   then functions <- py_getitem response_json (lit "functions") ;;
        py_print errors [lit "Found functions to execute:";
                         str_text functions] ;;;
        functions <- py_getitem response_json (lit "functions") ;;
        match functions with
        | VList l => dispatch l
        | _ => ret tt
        end
   else ret tt) ;;;
  msg <- py_get response_json (lit "message") (VStr []) ;;
  ret (success msg).

Definition execute_llm_request (request : LLMRequest) : M value :=
  print_text [lit "Received LLM request"] ;;;
  try_except (try_body request)
    (fun e =>
       print_text [lit "An error occurred: " ++ exn_str e] ;;;
       ret (error e)).

(** *** [handle_function_result]

    The handler logs one line: the session id and [data['result']], which
    the client sent and [json.loads] decoded. *)
Definition handle_function_result (sid : str) (data : value) : M value :=
  result <- py_getitem data (lit "result") ;;
  py_print errors [lit "Received result from client " ++ sid ++ lit ": "
                     ++ str_text result] ;;;
  ret VNone.

End Gateway.

Arguments error {float} e.

(** ** The [json] module

    [json.dumps(obj, indent=2)] and [json.loads(s)] of the standard library,
    for running the gateway on concrete texts.  The conversions between
    floats and their literals are parameters. *)

Section Json.
Variable float : Type.

Local Abbreviation value := (value float).

(** [float(literal)] and the encoder's text for a float. *)
Variable float_of_literal : str -> float.
Variable float_repr : float -> str.

(** *** Encoding *)

Definition escape_u (n : N) : str := [92; 117]%N ++ hex4 n.

(** The replacement of one character by [encode_basestring_ascii]. *)
Definition encode_char (c : char) : str :=
  (if c =? 34 then [92; 34]
   else if c =? 92 then [92; 92]
   else if c =? 10 then [92; 110]
   else if c =? 13 then [92; 114]
   else if c =? 9 then [92; 116]
   else if c =? 8 then [92; 98]
   else if c =? 12 then [92; 102]
   else if (32 <=? c) && (c <=? 126) then [c]
   else if c <? 65536 then escape_u c
   else
     let n := c - 65536 in
     escape_u (N.lor 55296 (N.land (N.shiftr n 10) 1023))
       ++ escape_u (N.lor 56320 (N.land n 1023)))%N.

Definition encode_string (s : str) : str :=
  dquote ++ flat_map encode_char s ++ dquote.

(** The line break and indentation before an item at a nesting level. *)
Definition newline_indent (level : nat) : str :=
  newline ++ repeat 32%N (2 * level).

Definition bracket (level : nat) (opening closing : str) (items : list str)
  : str :=
  match items with
  | [] => opening ++ closing
  | _ :: _ =>
      opening ++ newline_indent (S level)
        ++ join (lit "," ++ newline_indent (S level)) items
        ++ newline_indent level ++ closing
  end.

Fixpoint dumps_at (level : nat) (v : value) : str :=
  match v with
  | VNone => lit "null"
  | VBool true => lit "true"
  | VBool false => lit "false"
  | VInt z => int_repr z
  | VFloat x => float_repr x
  | VStr s => encode_string s
  | VList l =>
      bracket level (lit "[") (lit "]") (map (dumps_at (S level)) l)
  | VDict d =>
      bracket level (lit "{") (lit "}")
        (map (fun kv => let (k, v') := kv : str * value in
                        encode_string k ++ lit ": " ++ dumps_at (S level) v')
           d)
  end.

(** [json.dumps(obj, indent=2)] *)
Definition dumps (obj : value) : str := dumps_at 0 obj.

(** *** Decoding

    A failure is the message of the [JSONDecodeError] and the number of
    characters that follow the position it points at, or the exhaustion of
    the bound on the calls. *)

Inductive failure : Type :=
| Invalid (msg : str) (from : nat)
| TooDeep.

Definition scan (A : Type) : Type := (failure + (A * str))%type.

Definition is_ws (c : char) : bool :=
  ((c =? 32) || (c =? 9) || (c =? 10) || (c =? 13))%N.

Definition is_digit (c : char) : bool := ((48 <=? c) && (c <=? 57))%N.

Fixpoint skip_ws (s : str) : str :=
  match s with
  | c :: t => if is_ws c then skip_ws t else s
  | [] => []
  end.

Definition hex_value (c : char) : option N :=
  (if is_digit c then Some (c - 48)
   else if (97 <=? c) && (c <=? 102) then Some (c - 87)
   else if (65 <=? c) && (c <=? 70) then Some (c - 55)
   else None)%N.

Definition decode_hex4 (a b c d : char) : option N :=
  match hex_value a, hex_value b, hex_value c, hex_value d with
  | Some x, Some y, Some z, Some w => Some (((x * 16 + y) * 16 + z) * 16 + w)%N
  | _, _, _, _ => None
  end.

(** The character a one-letter escape stands for. *)
Definition unescape (c : char) : option char :=
  (if c =? 34 then Some 34
   else if c =? 92 then Some 92
   else if c =? 47 then Some 47
   else if c =? 98 then Some 8
   else if c =? 102 then Some 12
   else if c =? 110 then Some 10
   else if c =? 114 then Some 13
   else if c =? 116 then Some 9
   else None)%N.

(** [s] starts with the two characters of a [\u] escape. *)
Definition starts_escape_u (s : str) : bool :=
  match s with
  | a :: b :: _ => ((a =? 92) && (b =? 117))%N
  | _ => false
  end.

(** The code point of a pair of surrogates, when [hi] and [lo] are one. *)
Definition surrogate_pair (hi lo : N) : option N :=
  (if (55296 <=? hi) && (hi <=? 56319) && (56320 <=? lo) && (lo <=? 57343)
   then Some (65536 + N.lor (N.shiftl (hi - 55296) 10) (lo - 56320))
   else None)%N.

(** [scanstring], after the opening quote; [from] is the number of
    characters from that quote to the end of the document, [acc] the
    characters read so far, last first.  As in the C scanner, the four
    digits of a [\u] escape are read only when a character follows them,
    and a second escape is tried as the low surrogate of a pair only when
    a character follows it. *)
Fixpoint scanstring (from : nat) (acc : str) (s : str) : scan str :=
  match s with
  | [] => inl (Invalid (lit "Unterminated string starting at") from)
  | c :: t =>
      if (c =? 34)%N then inr (rev acc, t)
      else if (c =? 92)%N then
        match t with
        | [] => inl (Invalid (lit "Unterminated string starting at") from)
        | e :: t' =>
            if (e =? 117)%N then
              match t' with
              | h1 :: h2 :: h3 :: h4 :: ((_ :: _) as t'') =>
                  match decode_hex4 h1 h2 h3 h4 with
                  | None =>
                      inl (Invalid (lit "Invalid \uXXXX escape") (length t))
                  | Some hi =>
                      match t'' with
                      | b :: u :: l1 :: l2 :: l3 :: l4 :: ((_ :: _) as t3) =>
                          match
                            (if starts_escape_u t''
                             then decode_hex4 l1 l2 l3 l4 else None)
                          with
                          | Some lo =>
                              match surrogate_pair hi lo with
                              | Some code => scanstring from (code :: acc) t3
                              | None => scanstring from (hi :: acc) t''
                              end
                          | None => scanstring from (hi :: acc) t''
                          end
                      | _ => scanstring from (hi :: acc) t''
                      end
                  end
              | _ => inl (Invalid (lit "Invalid \uXXXX escape") (length t))
              end
            else
              match unescape e with
              | Some ch => scanstring from (ch :: acc) t'
              | None => inl (Invalid (lit "Invalid \escape") (length s))
              end
        end
      else if (c <? 32)%N then
        inl (Invalid (lit "Invalid control character at") (length s))
      else scanstring from (c :: acc) t
  end.

Fixpoint span_digits (s : str) : str * str :=
  match s with
  | c :: t =>
      if is_digit c then let (ds, r) := span_digits t in (c :: ds, r)
      else ([], s)
  | [] => ([], [])
  end.

(** An optional character of [allowed] at the head of [s]. *)
Definition match_optional (allowed : str) (s : str) : str * str :=
  match s with
  | c :: t => if existsb (N.eqb c) allowed then ([c], t) else ([], s)
  | [] => ([], s)
  end.

(** The integer part of a number: an optional minus sign, then either a
    single zero or a non-zero digit followed by digits. *)
Definition match_integer (s : str) : option (str * str) :=
  let (sign, s') := match_optional (lit "-") s in
  match s' with
  | c :: t =>
      if (c =? 48)%N then Some (sign ++ [c], t)
      else if is_digit c
      then let (ds, r) := span_digits s' in Some (sign ++ ds, r)
      else None
  | [] => None
  end.

(** The fraction, when one is there: a dot and at least one digit. *)
Definition match_frac (s : str) : str * str :=
  match s with
  | c :: t =>
      if (c =? 46)%N then
        match span_digits t with
        | ([], _) => ([], s)
        | (ds, r) => (c :: ds, r)
        end
      else ([], s)
  | [] => ([], s)
  end.

(** The exponent, when one is there: [e] or [E], an optional sign and at
    least one digit. *)
Definition match_exp (s : str) : str * str :=
  match s with
  | e :: t =>
      if ((e =? 101) || (e =? 69))%N then
        let (sign, t') := match_optional (lit "-+") t in
        match span_digits t' with
        | ([], _) => ([], s)
        | (ds, r) => (e :: sign ++ ds, r)
        end
      else ([], s)
  | [] => ([], s)
  end.

Definition digits_value (ds : str) : Z :=
  fold_left (fun acc c => (acc * 10 + Z.of_N (c - 48))%Z) ds 0%Z.

(** [int(literal)] for a literal [match_integer] accepted. *)
Definition int_of_literal (s : str) : Z :=
  match match_optional (lit "-") s with
  | ([], ds) => digits_value ds
  | (_, ds) => (- digits_value ds)%Z
  end.

Definition match_number (s : str) : option (value * str) :=
  match match_integer s with
  | None => None
  | Some (integer, r1) =>
      let (frac, r2) := match_frac r1 in
      let (exp, r3) := match_exp r2 in
      match frac, exp with
      | [], [] => Some (VInt (int_of_literal integer), r3)
      | _, _ => Some (VFloat (float_of_literal (integer ++ frac ++ exp)), r3)
      end
  end.

(** The constants [scan_once] reads by their name. *)
Definition constants : list (str * value) :=
  [ (lit "null", VNone); (lit "true", VBool true);
    (lit "false", VBool false) ].

Definition float_constants : list str :=
  [ lit "NaN"; lit "Infinity"; lit "-Infinity" ].

Fixpoint match_constant (table : list (str * value)) (s : str)
  : option (value * str) :=
  match table with
  | [] => None
  | (name, v) :: rest =>
      if startswith s name then Some (v, skipn (length name) s)
      else match_constant rest s
  end.

Definition expecting_value (s : str) : failure :=
  Invalid (lit "Expecting value") (length s).

Definition expecting_property_name (s : str) : failure :=
  Invalid (lit "Expecting property name enclosed in double quotes")
    (length s).

Definition expecting_delimiter (c : string) (s : str) : failure :=
  Invalid (lit "Expecting '" ++ lit c ++ lit "' delimiter") (length s).

(** [scan_once], [JSONArray] and [JSONObject]; [fuel] bounds the calls. *)
Fixpoint scan_once (fuel : nat) (s : str) : scan value :=
  match fuel with
  | O => inl TooDeep
  | S fuel' =>
      if head_is 34 s then
        match scanstring (length s) [] (tl s) with
        | inl f => inl f
        | inr (x, r) => inr (VStr x, r)
        end
      else if head_is 123 s then
        let r := skip_ws (tl s) in
        if head_is 125 r then inr (VDict [], tl r)
        else if head_is 34 r then object_items fuel' [] r
        else inl (expecting_property_name r)
      else if head_is 91 s then
        let r := skip_ws (tl s) in
        if head_is 93 r then inr (VList [], tl r)
        else array_items fuel' [] r
      else
        match match_constant constants s with
        | Some r => inr r
        | None =>
            match match_number s with
            | Some r => inr r
            | None =>
                match
                  match_constant
                    (map (fun name => (name, VFloat (float_of_literal name)))
                       float_constants) s
                with
                | Some r => inr r
                | None => inl (expecting_value s)
                end
            end
        end
  end

(** The loop of [JSONArray]: [s] starts at the next value, [acc] holds the
    values read so far, last first. *)
with array_items (fuel : nat) (acc : list value) (s : str) : scan value :=
  match fuel with
  | O => inl TooDeep
  | S fuel' =>
      match scan_once fuel' s with
      | inl f => inl f
      | inr (v, r) =>
          let r' := skip_ws r in
          if head_is 93 r' then inr (VList (rev (v :: acc)), tl r')
          else if head_is 44 r'
          then array_items fuel' (v :: acc) (skip_ws (tl r'))
          else inl (expecting_delimiter "," r')
      end
  end

(** The loop of [JSONObject]: [s] starts at the quote of the next key,
    [acc] holds the dict built from the pairs read so far. *)
with object_items (fuel : nat) (acc : list (str * value)) (s : str)
  : scan value :=
  match fuel with
  | O => inl TooDeep
  | S fuel' =>
      if head_is 34 s then
        match scanstring (length s) [] (tl s) with
        | inl f => inl f
        | inr (key, r) =>
            let r1 := skip_ws r in
            if head_is 58 r1 then
              match scan_once fuel' (skip_ws (tl r1)) with
              | inl f => inl f
              | inr (v, r2) =>
                  let r3 := skip_ws r2 in
                  if head_is 125 r3
                  then inr (VDict (dict_set acc key v), tl r3)
                  else if head_is 44 r3
                  then object_items fuel' (dict_set acc key v)
                         (skip_ws (tl r3))
                  else inl (expecting_delimiter "," r3)
              end
            else inl (expecting_delimiter ":" r1)
        end
      else inl (expecting_property_name s)
  end.

(** [doc.count('\n', 0, pos)] and the distance of [pos] from the line
    break before it, for the text of a [JSONDecodeError]. *)
Fixpoint line_col (doc : str) (pos : nat) (line col : nat) : nat * nat :=
  match pos, doc with
  | S pos', c :: doc' =>
      if (c =? 10)%N then line_col doc' pos' (S line) 1
      else line_col doc' pos' line (S col)
  | _, _ => (line, col)
  end.

(** [JSONDecodeError(msg, doc, pos)] *)
Definition JSONDecodeError (msg doc : str) (pos : nat) : exn :=
  let (line, col) := line_col doc pos 1 1 in
  Exception (lit "JSONDecodeError")
    (msg ++ lit ": line " ++ nat_repr line ++ lit " column " ++ nat_repr col
       ++ lit " (char " ++ nat_repr pos ++ lit ")").

Definition RecursionError : exn :=
  Exception (lit "RecursionError")
    (lit "maximum recursion depth exceeded while decoding a JSON document").

(** [json.loads(s)] for a [str]; the bound on the calls is one the decoder
    does not reach.  The limits the interpreter sets, on the depth of the
    nesting and on the number of digits of an integer, are left out. *)
Definition loads (s : str) : exn + value :=
  if head_is 65279 s then
    inl (JSONDecodeError
           (lit "Unexpected UTF-8 BOM (decode using utf-8-sig)") s 0)
  else
    match scan_once (2 * length s + 2) (skip_ws s) with
    | inl TooDeep => inl RecursionError
    | inl (Invalid msg from) =>
        inl (JSONDecodeError msg s (length s - from))
    | inr (obj, r) =>
        match skip_ws r with
        | [] => inr obj
        | r' => inl (JSONDecodeError (lit "Extra data") s
                       (length s - length r'))
        end
    end.

End Json.

(** A scan that failed on the text, or succeeded and left fewer than [n]
    characters. *)
Definition consumes {A : Type} (n : nat) (r : scan A) : Prop :=
  match r with
  | inl TooDeep => False
  | inl (Invalid _ _) => True
  | inr (_, rest) => length rest < n
  end.

(** ** Observations on the gateway *)

Section Observations.
Variable float : Type.

Local Abbreviation value := (value float).

(** The emissions a list of function calls is expected to produce: one
    [execute_command] each, in the order of the list. *)
Definition commands (functions : list value) : list (emission float) :=
  map (fun func_call => Emit (lit "execute_command") (command func_call))
    functions.


(** The functions a parsed response has the handler dispatch. *)
Definition dispatched (d : list (str * value)) : list value :=
  match dict_get d (lit "functions") with
  | Some (VList l) => l
  | _ => []
  end.

(** [response_json.get('message', '')] on a dict. *)
Definition message_of (d : list (str * value)) : value :=
  match dict_get d (lit "message") with
  | Some v => v
  | None => VStr []
  end.

Definition is_dict (v : value) : bool :=
  match v with
  | VDict _ => true
  | _ => false
  end.

Variable errors : error_handler.

(** The function calls the loop gets through: those before the first one
    whose log line the standard output refuses. *)
Fixpoint printable_prefix (functions : list value) : list value :=
  match functions with
  | [] => []
  | func_call :: rest =>
      if printable errors func_call
      then func_call :: printable_prefix rest
      else []
  end.

(** The first function call whose log line the standard output refuses. *)
Fixpoint first_unprintable (functions : list value) : option value :=
  match functions with
  | [] => None
  | func_call :: rest =>
      if printable errors func_call
      then first_unprintable rest
      else Some func_call
  end.

End Observations.

(** [sub] occurs in [s]. *)
Definition infix (sub s : str) : Prop :=
  exists before after, s = before ++ sub ++ after.

(** A text wrapped in a Markdown code fence, with or without the language
    tag. *)
Definition fenced (tag : bool) (blob : str) : str :=
  (if tag then lit "```json" else lit "```")
    ++ newline ++ blob ++ newline ++ lit "```".

(** No match of [p] starts inside [x] when [x] is followed by [y]. *)
Fixpoint absent_upto (x y p : str) : bool :=
  match x with
  | [] => true
  | _ :: t => negb (startswith (x ++ y) p) && absent_upto t y p
  end.

(** The part of [s] before the first [c]. *)
Fixpoint before_char (c : char) (s : str) : str :=
  match s with
  | [] => []
  | a :: t => if (a =? c)%N then [] else a :: before_char c t
  end.

(** The signature a catalog line shows, between its dash and its colon. *)
Definition signature (entry : str) : str := before_char 58%N (skipn 2 entry).

(** [s.split('\n')]; [cur] is the line being read, last character first. *)
Fixpoint split_lines_from (cur : str) (s : str) : list str :=
  match s with
  | [] => [rev cur]
  | c :: t =>
      if (c =? 10)%N then rev cur :: split_lines_from [] t
      else split_lines_from (c :: cur) t
  end.

Definition split_lines (s : str) : list str := split_lines_from [] s.

Fixpoint lines_after (header : str) (lines : list str) : list str :=
  match lines with
  | [] => []
  | l :: rest => if str_eqb l header then rest else lines_after header rest
  end.

Fixpoint lines_until_blank (lines : list str) : list str :=
  match lines with
  | [] => []
  | [] :: _ => []
  | l :: rest => l :: lines_until_blank rest
  end.

(** The catalog a prompt shows: the lines from the one after
    [Available Functions:] to the next empty line. *)
Definition catalog_of (p : str) : list str :=
  lines_until_blank
    (lines_after (indent ++ lit "Available Functions:") (split_lines p)).

(** ** Scenarios

    The gateway run on a fixed reply of the model, with the [json] module
    above.  No text of the scenarios holds a float literal; a float stands
    as its literal. *)

Module Scenario.

Definition float : Type := str.
Definition json_loads : str -> exn + value float := loads (fun x => x).
Definition json_dumps : value float -> str := dumps (fun x => x).

(** A model that answers [reply] to every prompt. *)
Definition replies (reply : str) : str -> str -> exn + str :=
  fun _ _ => inr reply.

(** A model whose invocation raises [e]. *)
Definition fails (e : exn) : str -> str -> exn + str :=
  fun _ _ => inl e.

Definition q (s : string) : str := dquote ++ lit s ++ dquote.
Arguments q s%_string.

(** The request of scenario 1. *)
Definition request : LLMRequest float :=
  {| data := [(lit "A1", VInt 1); (lit "A2", VInt 2); (lit "A3", VInt 3)];
     message := lit "sum column A into B1";
     apiKey := lit "key" |}.

Definition empty_request : LLMRequest float :=
  {| data := []; message := []; apiKey := lit "key" |}.

(** The handler on [request], no emission made before, under an error
    handler of the standard output and under [strict]. *)
Definition run_with (errors : error_handler) (reply : str)
  : (exn + value float) * list (emission float) :=
  execute_llm_request errors (replies reply) json_dumps json_loads request [].

Definition run (reply : str) : (exn + value float) * list (emission float) :=
  run_with strict reply.

Definition reply_done : str :=
  lit "{" ++ q "message" ++ lit ":" ++ q "Done" ++ lit ","
    ++ q "functions" ++ lit ":[" ++ q "sum_col('A')" ++ lit ","
    ++ q "update_cell('B',1,'SUM_RESULT')" ++ lit "]}".



(** The exception [json.loads] raises on [reply_not_json]. *)
Definition not_json_error : exn :=
  Exception (lit "JSONDecodeError")
    (lit "Expecting value: line 1 column 1 (char 0)").









(** A form feed, then an empty JSON object. *)
Definition reply_form_feed : str := 12%N :: lit "{}".

(** The failure of the Gemini client on a rejected key. *)
Definition invalid_key : exn :=
  Exception (lit "InvalidArgument") (lit "400 API key not valid.").

(** A reply whose message quotes a code fence. *)
Definition reply_backticks : str :=
  lit "{" ++ q "message" ++ lit ":" ++ q "Use ``` around code"
    ++ lit "," ++ q "functions" ++ lit ":[]}".

(** [reply_done] with white space around it. *)
Definition reply_padded : str := lit " " ++ reply_done ++ newline.

(** A reply whose second call is the escape of a lone surrogate, U+D83D. *)
Definition reply_lone_surrogate : str :=
  lit "{" ++ q "message" ++ lit ":" ++ q "m" ++ lit ","
    ++ q "functions" ++ lit ":[" ++ q "a" ++ lit "," ++ q "\ud83d"
    ++ lit "," ++ q "b" ++ lit "]}".

Definition response_lone_surrogate : list (str * value float) :=
  [ (lit "message", VStr (lit "m"));
    (lit "functions",
     VList [VStr (lit "a"); VStr [55357%N]; VStr (lit "b")]) ].

(** The text of the exception [print] raises on the log line of the second
    call of [reply_lone_surrogate]. *)
Definition lone_surrogate_error : str :=
  lit "'utf-8' codec can't encode character '\ud83d' in position 18: surrogates not allowed".


(** Payloads of [function_result], and the session id of a client. *)
Definition result_done : value float :=
  VDict [(lit "result", VInt 6)].

Definition result_lone_surrogate : value float :=
  VDict [(lit "result", VStr [55357%N])].

Definition sid : str := lit "Zf3k".

End Scenario.

(** ** Further observations *)

(** [a] is [b] with some characters deleted. *)
Inductive subseq : str -> str -> Prop :=
| subseq_nil : subseq [] []
| subseq_skip c a b : subseq a b -> subseq a (c :: b)
| subseq_keep c a b : subseq a b -> subseq (c :: a) (c :: b).

(** The prompt around the snapshot and the message: the text of the f-string
    before the first replacement field, between the two fields, and after
    the second. *)
Definition prompt_before : str :=
  join newline
    [ []; indent ++ role_statement; []; indent ++ lit "Spreadsheet Data:" ]
    ++ newline ++ indent.

Definition prompt_between : str :=
  newline
    ++ join newline
         ([ []; indent ++ lit "Available Functions:" ]
            ++ map (app indent) available_functions ++ [ [] ])
    ++ newline ++ indent ++ lit "User Message: " ++ dquote.

Definition prompt_after : str :=
  dquote ++ newline
    ++ join newline
         ([ [] ] ++ map (app indent) output_contract ++ [ [] ]
            ++ map (app indent) example_response ++ [ indent ]).

(** The class of the exception the [try] body raises on a parsed reply that
    is no dict: the membership test fails on a scalar, the subscript on a
    string or list that holds ['functions'], and [.get] otherwise. *)
Definition non_dict_failure {float : Type} (v : value float) : str :=
  match v with
  | VStr s =>
      if contains s (lit "functions")
      then lit "TypeError" else lit "AttributeError"
  | VList l =>
      if existsb (str_eq_value (lit "functions")) l
      then lit "TypeError" else lit "AttributeError"
  | _ => lit "TypeError"
  end.

(** An emission of the event [execute_command] whose payload is a dict of
    the one key ['command']. *)
Definition is_execute_command {float : Type} (e : emission float) : Prop :=
  event e = lit "execute_command"
  /\ exists func_call, payload e = VDict [(lit "command", func_call)].

(** What follows the opening fence of a reply tagged [python]: the tag, a
    line break and an empty JSON object. *)
Definition python_tagged_body : str := lit "python" ++ newline ++ lit "{}".

(** * Properties *)

Unset Implicit Arguments.

(** ** The dispatch loop and the handler *)

Section GatewayFacts.
Variable float : Type.
Variable errors : error_handler.
Variable generate_content : str -> str -> exn + str.
Variable json_dumps : value float -> str.
Variable json_loads : str -> exn + value float.

Local Abbreviation value := (value float).
Local Abbreviation emission := (emission float).
Local Abbreviation handler :=
  (execute_llm_request errors generate_content json_dumps json_loads).
Local Abbreviation body :=
  (try_body errors generate_content json_dumps json_loads).

Implicit Types (request : LLMRequest float) (tr : list emission)
  (d : list (str * value)) (functions : list value) (text : str)
  (v func_call : value).

(** *** [print] *)

Lemma encodable_app (a b : str) :
  encodable errors (a ++ b) = encodable errors a && encodable errors b.
Proof. apply forallb_app. Qed.

Lemma py_print_labelled (label : str) v tr :
  encodable errors label = true ->
  py_print errors [label; str_text v] tr
  = if printable errors v then (inr tt, tr)
    else (inl (UnicodeEncodeError errors (str_text v)), tr).
Proof.
  intro L. unfold py_print, for_in, bind, stdout_write, printable.
  rewrite L. unfold ret at 1.
  now destruct (encodable errors (str_text v)).
Qed.

Lemma py_print_line (prefix : str) v tr :
  py_print errors [prefix ++ str_text v] tr
  = if encodable errors prefix && printable errors v then (inr tt, tr)
    else (inl (UnicodeEncodeError errors (prefix ++ str_text v)), tr).
Proof.
  unfold py_print, for_in, bind, stdout_write, printable.
  rewrite encodable_app.
  now destruct (encodable errors prefix && encodable errors (str_text v)).
Qed.

(** *** The loop *)

Lemma dispatch_cons func_call functions tr :
  dispatch errors (func_call :: functions) tr
  = if printable errors func_call
    then dispatch errors functions
           (tr ++ [Emit (lit "execute_command") (command func_call)])
    else (inl (UnicodeEncodeError errors
                 (lit "Emitting command: " ++ str_text func_call)), tr).
Proof.
  unfold dispatch. cbn [for_in]. unfold bind at 1 2.
  rewrite py_print_line.
  change (encodable errors (lit "Emitting command: ")) with true.
  now destruct (printable errors func_call).
Qed.

Lemma dispatch_run functions tr :
  dispatch errors functions tr
  = (match first_unprintable errors functions with
     | None => inr tt
     | Some func_call =>
         inl (UnicodeEncodeError errors
                (lit "Emitting command: " ++ str_text func_call))
     end,
     tr ++ commands (printable_prefix errors functions)).
Proof.
  revert tr; induction functions as [|f l IH]; intro tr.
  - simpl. unfold ret. now rewrite app_nil_r.
  - rewrite dispatch_cons. simpl.
    destruct (printable errors f).
    + rewrite IH. simpl. now rewrite <- app_assoc.
    + simpl. now rewrite app_nil_r.
Qed.




Lemma first_unprintable_split pre func_call post :
  forallb (printable errors) pre = true ->
  printable errors func_call = false ->
  first_unprintable errors (pre ++ func_call :: post) = Some func_call
  /\ printable_prefix errors (pre ++ func_call :: post) = pre.
Proof.
  intros Hpre Hf. induction pre as [|f l IH]; simpl.
  - now rewrite Hf.
  - simpl in Hpre. apply andb_prop in Hpre as [Hp Hl].
    rewrite Hp. destruct (IH Hl) as [A B]. now rewrite A, B.
Qed.


(** *** The body of the [try] *)

Lemma body_generate_error request tr e :
  generate_content (apiKey request)
    (prompt json_dumps request) = inl e ->
  body request tr = (inl e, tr).
Proof.
  intro H. unfold try_body, bind, call, print_text, ret. now rewrite H.
Qed.

Lemma body_loads_error request tr text e :
  generate_content (apiKey request)
    (prompt json_dumps request) = inr text ->
  json_loads (cleaned_response_text text) = inl e ->
  body request tr = (inl e, tr).
Proof.
  intros H1 H2. unfold try_body, bind, call, print_text, ret.
  now rewrite H1, H2.
Qed.

(** After the reply was parsed, the body goes on from the [print] of the
    parsed response. *)
Lemma body_parsed request tr text v :
  generate_content (apiKey request)
    (prompt json_dumps request) = inr text ->
  json_loads (cleaned_response_text text) = inr v ->
  body request tr
  = if printable errors v
    then
      (present <- py_contains (lit "functions") v ;;
       is_list <- (if present : bool
                   then functions <- py_getitem v (lit "functions") ;;
                        ret (isinstance_list functions)
                   else ret false) ;;
       (if is_list : bool
        then functions <- py_getitem v (lit "functions") ;;
             py_print errors [lit "Found functions to execute:";
                       str_text functions] ;;;
             functions <- py_getitem v (lit "functions") ;;
             match functions with
             | VList l => dispatch errors l
             | _ => ret tt
             end
        else ret tt) ;;;
       msg <- py_get v (lit "message") (VStr []) ;;
       ret (success msg))%py tr
    else (inl (UnicodeEncodeError errors (str_text v)), tr).
Proof.
  intros H1 H2. unfold try_body.
  unfold bind at 1, print_text at 1, ret at 1.
  unfold bind at 1, call at 1. rewrite H1.
  unfold bind at 1, print_text at 1, ret at 1.
  unfold bind at 1, print_text at 1, ret at 1.
  unfold bind at 1, call at 1. rewrite H2.
  unfold bind at 1. rewrite py_print_labelled by reflexivity.
  now destruct (printable errors v).
Qed.

Lemma body_dict request tr text d :
  generate_content (apiKey request)
    (prompt json_dumps request) = inr text ->
  json_loads (cleaned_response_text text) = inr (VDict d) ->
  body request tr
  = (match first_unprintable errors (dispatched d) with
     | None => inr (success (message_of d))
     | Some func_call =>
         inl (UnicodeEncodeError errors
                (lit "Emitting command: " ++ str_text func_call))
     end,
     tr ++ commands (printable_prefix errors (dispatched d))).
Proof.
  intros H1 H2. rewrite (body_parsed _ _ _ _ H1 H2).
  change (printable errors (VDict d)) with true. cbv iota.
  unfold dispatched, message_of, bind, py_contains, py_getitem, py_get, ret.
  destruct (dict_get d (lit "functions")) as [v|] eqn:F; simpl.
  - destruct v; simpl; try now rewrite app_nil_r.
    rewrite dispatch_run.
    now destruct (first_unprintable errors l).
  - now rewrite app_nil_r.
Qed.

Lemma body_not_dict request tr text v :
  generate_content (apiKey request)
    (prompt json_dumps request) = inr text ->
  json_loads (cleaned_response_text text) = inr v ->
  is_dict v = false ->
  exists e,
    body request tr = (inl e, tr)
    /\ exn_class e
       = (if printable errors v then non_dict_failure v
          else lit "UnicodeEncodeError")
    /\ (printable errors v = false ->
        e = UnicodeEncodeError errors (str_text v)).
Proof.
  intros H1 H2 Hv. rewrite (body_parsed _ _ _ _ H1 H2).
  destruct v as [|b|z|x|s|l|d]; try discriminate;
    unfold printable; cbn [str_text];
    try change (encodable errors []) with true; cbv iota;
    unfold bind, py_contains, py_getitem, py_get, ret, raise.
  1-4: simpl; eexists; repeat split; intro A; discriminate A.
  - destruct (encodable errors s).
    + simpl. destruct (contains s (lit "functions")); simpl;
        eexists; repeat split; intro A; discriminate A.
    + eexists. repeat split.
  - simpl. destruct (existsb (str_eq_value (lit "functions")) l); simpl;
      eexists; repeat split; intro A; discriminate A.
Qed.


(** *** The handler *)

Lemma handler_of_body request tr :
  handler request tr
  = match body request tr with
    | (inl e, tr') => (inr (error e), tr')
    | (inr response, tr') => (inr response, tr')
    end.
Proof.
  unfold execute_llm_request, bind, print_text, ret, try_except.
  now destruct (try_body errors generate_content json_dumps json_loads
                  request tr) as [[e|response] tr'].
Qed.

Lemma handler_generate_error request tr e :
  generate_content (apiKey request)
    (prompt json_dumps request) = inl e ->
  handler request tr = (inr (error e), tr).
Proof.
  intro H. rewrite handler_of_body. now rewrite (body_generate_error _ _ _ H).
Qed.

Lemma handler_loads_error request tr text e :
  generate_content (apiKey request)
    (prompt json_dumps request) = inr text ->
  json_loads (cleaned_response_text text) = inl e ->
  handler request tr = (inr (error e), tr).
Proof.
  intros G J. rewrite handler_of_body.
  now rewrite (body_loads_error _ _ _ _ G J).
Qed.

Lemma handler_dict request tr text d :
  generate_content (apiKey request)
    (prompt json_dumps request) = inr text ->
  json_loads (cleaned_response_text text) = inr (VDict d) ->
  handler request tr
  = (inr match first_unprintable errors (dispatched d) with
         | None => success (message_of d)
         | Some func_call =>
             error (UnicodeEncodeError errors
                      (lit "Emitting command: " ++ str_text func_call))
         end,
     tr ++ commands (printable_prefix errors (dispatched d))).
Proof.
  intros H1 H2. rewrite handler_of_body, (body_dict _ _ _ _ H1 H2).
  now destruct (first_unprintable errors (dispatched d)).
Qed.


Lemma handler_not_dict request tr text v :
  generate_content (apiKey request)
    (prompt json_dumps request) = inr text ->
  json_loads (cleaned_response_text text) = inr v ->
  is_dict v = false ->
  exists e,
    body request tr = (inl e, tr)
    /\ exn_class e
       = (if printable errors v then non_dict_failure v
          else lit "UnicodeEncodeError")
    /\ (printable errors v = false ->
        e = UnicodeEncodeError errors (str_text v))
    /\ handler request tr = (inr (error e), tr).
Proof.
  intros H1 H2 Hv.
  destruct (body_not_dict _ tr _ _ H1 H2 Hv) as [e [He [C U]]].
  exists e. repeat split; trivial. rewrite handler_of_body. now rewrite He.
Qed.

(** The handler has emitted nothing, or the function calls of the parsed
    response up to the first one it could not log. *)
Lemma handler_emissions request tr :
  snd (handler request tr) = tr
  \/ exists text d,
       generate_content (apiKey request)
         (prompt json_dumps request) = inr text
       /\ json_loads (cleaned_response_text text) = inr (VDict d)
       /\ snd (handler request tr)
          = tr ++ commands (printable_prefix errors (dispatched d)).
Proof.
  destruct (generate_content (apiKey request) (prompt json_dumps request))
    as [e|text] eqn:G.
  - left. now rewrite (handler_generate_error _ _ _ G).
  - destruct (json_loads (cleaned_response_text text)) as [e|v] eqn:J.
    + left. now rewrite (handler_loads_error _ _ _ _ G J).
    + destruct (is_dict v) eqn:Hv.
      * right. destruct v; try discriminate.
        exists text, d. repeat split; trivial.
        now rewrite (handler_dict _ _ _ _ G J).
      * left.
        destruct (handler_not_dict _ tr _ _ G J Hv) as [e [_ [_ [_ He]]]].
        now rewrite He.
Qed.





(** *** [handle_function_result] *)

Lemma function_result_logged (sid : str) d v tr :
  dict_get d (lit "result") = Some v ->
  handle_function_result errors sid (VDict d) tr
  = if encodable errors sid && printable errors v then (inr VNone, tr)
    else (inl (UnicodeEncodeError errors
                 (lit "Received result from client " ++ sid ++ lit ": "
                    ++ str_text v)), tr).
Proof.
  intro R. unfold handle_function_result, bind, py_getitem.
  rewrite R. unfold ret at 1.
  replace (lit "Received result from client " ++ sid ++ lit ": "
             ++ str_text v)
    with ((lit "Received result from client " ++ sid ++ lit ": ")
            ++ str_text v) by now rewrite <- !app_assoc.
  rewrite py_print_line, !encodable_app.
  change (encodable errors (lit "Received result from client ")) with true.
  change (encodable errors (lit ": ")) with true.
  rewrite andb_true_r. cbn [andb].
  now destruct (encodable errors sid && printable errors v).
Qed.

(** C10, as the handler has it: [handle_function_result] returns exactly
    when the payload is a dict with the key ['result'] and the line it
    logs can be printed, that is when neither the session id nor a result
    that is a string holds a surrogate; on every other payload it raises,
    and it emits nothing either way. *)
Theorem function_result_returns_iff_result_is_logged
    (sid : str) (data : value) tr :
  ((exists r, handle_function_result errors sid data tr = (inr r, tr))
   <-> (exists d v,
          data = VDict d /\ dict_get d (lit "result") = Some v
          /\ encodable errors sid = true /\ printable errors v = true))
  /\ ((exists e, handle_function_result errors sid data tr = (inl e, tr))
      <-> ~ (exists d v,
               data = VDict d /\ dict_get d (lit "result") = Some v
               /\ encodable errors sid = true /\ printable errors v = true)).
Proof.
  destruct data as [| | | | | |d];
    try (split; split;
         [ intros [r H]; discriminate
         | intros [d [v [H _]]]; discriminate
         | intros _ [d [v [H _]]]; discriminate
         | intros _; eexists; reflexivity ]).
  destruct (dict_get d (lit "result")) as [v|] eqn:R.
  - rewrite (function_result_logged sid d v tr R).
    destruct (encodable errors sid) eqn:S;
      destruct (printable errors v) eqn:P; simpl;
      (split; split;
       [ try (intros [r H]; discriminate H);
         intros _; exists d, v; now repeat split
       | try (intros _; now exists VNone);
         intros [d' [v' [H [Hv [A B]]]]]; injection H as <-;
         rewrite R in Hv; injection Hv as <-; congruence
       | try (intros [e H]; discriminate H);
         intros _ [d' [v' [H [Hv [A B]]]]]; injection H as <-;
         rewrite R in Hv; injection Hv as <-; congruence
       | try (intros _; eexists; reflexivity);
         intros H; destruct H; exists d, v; now repeat split ]).
  - unfold handle_function_result, bind, py_getitem. rewrite R.
    split; split.
    + intros [r H]. discriminate.
    + intros [d' [v [H [Hv _]]]]. injection H as <-. congruence.
    + intros _ [d' [v [H [Hv _]]]]. injection H as <-. congruence.
    + intros _. eexists. reflexivity.
Qed.

End GatewayFacts.

(** ** String methods *)

Section StringFacts.
Implicit Types (s p q x y : str) (c : char).

Lemma startswith_nil s : startswith s [] = true.
Proof. now destruct s. Qed.

Lemma startswith_self_app p s : startswith (p ++ s) p = true.
Proof.
  induction p as [|a p IH]; simpl.
  - apply startswith_nil.
  - now rewrite N.eqb_refl.
Qed.

Lemma startswith_shorter s p q :
  startswith s (p ++ q) = true -> startswith s p = true.
Proof.
  revert s; induction p as [|a p IH]; intros s H.
  - apply startswith_nil.
  - destruct s as [|b s]; simpl in *; [discriminate|].
    apply andb_true_iff in H as [H1 H2].
    now rewrite H1, (IH _ H2).
Qed.

Lemma startswith_longer x y p :
  startswith x p = true -> startswith (x ++ y) p = true.
Proof.
  revert x; induction p as [|a p IH]; intros x H.
  - apply startswith_nil.
  - destruct x as [|b x]; simpl in *; [discriminate|].
    apply andb_true_iff in H as [H1 H2].
    now rewrite H1, (IH _ H2).
Qed.

(** A match that starts before a separator the pattern does not hold ends
    before it. *)
Lemma startswith_before_separator x y p sep :
  ~ In sep p ->
  startswith (x ++ sep :: y) p = true -> startswith x p = true.
Proof.
  revert x; induction p as [|a p IH]; intros x Hsep H.
  - apply startswith_nil.
  - destruct x as [|b x]; simpl in *.
    + apply andb_true_iff in H as [H1 _].
      apply N.eqb_eq in H1. destruct Hsep. now left.
    + apply andb_true_iff in H as [H1 H2].
      rewrite H1. simpl. apply IH; [|exact H2].
      intro Hin. apply Hsep. now right.
Qed.

Lemma contains_cons c s p :
  contains (c :: s) p = startswith (c :: s) p || contains s p.
Proof. reflexivity. Qed.

Lemma contains_nil p : contains [] p = startswith [] p.
Proof. simpl. apply orb_false_r. Qed.

Lemma contains_shorter s p q :
  contains s (p ++ q) = true -> contains s p = true.
Proof.
  induction s as [|c s IH]; intro H.
  - rewrite contains_nil in *. now apply startswith_shorter with q.
  - rewrite contains_cons in *. apply orb_true_iff in H as [H|H].
    + now rewrite (startswith_shorter _ _ _ H).
    + rewrite (IH H). apply orb_true_r.
Qed.

Lemma contains_suffix x s p :
  contains (x ++ s) p = false -> contains s p = false.
Proof.
  induction x as [|c x IH]; [trivial|].
  simpl app. rewrite contains_cons. intro H.
  apply orb_false_iff in H as [_ H]. now apply IH.
Qed.

Lemma contains_prefix x y p :
  contains (x ++ y) p = false -> contains x p = false.
Proof.
  induction x as [|c x IH]; intro H.
  - rewrite contains_nil.
    destruct p; [|reflexivity].
    simpl app in H. destruct y; discriminate.
  - simpl app in H. rewrite contains_cons in *.
    apply orb_false_iff in H as [H1 H2].
    rewrite (IH H2), orb_false_r.
    destruct (startswith (c :: x) p) eqn:E; [|reflexivity].
    apply startswith_longer with (y := y) in E.
    simpl app in E. congruence.
Qed.

(** *** [replace] *)

Lemma replace_from_skip old new x s :
  replace_from old new (length x) (x ++ s) = replace_from old new 0 s.
Proof.
  induction x as [|c x IH]; simpl; [|exact IH].
  now destruct s.
Qed.

Lemma replace_from_cons old new c s :
  replace_from old new 0 (c :: s)
  = if startswith (c :: s) old
    then new ++ replace_from old new (length old - 1) s
    else c :: replace_from old new 0 s.
Proof. reflexivity. Qed.

Lemma replace_from_match old new s :
  old <> [] ->
  replace_from old new 0 (old ++ s) = new ++ replace_from old new 0 s.
Proof.
  destruct old as [|a old]; [congruence|]. intros _.
  rewrite <- app_comm_cons at 1.
  rewrite replace_from_cons, app_comm_cons, startswith_self_app.
  replace (length (a :: old) - 1) with (length old) by (simpl; lia).
  now rewrite replace_from_skip.
Qed.

Lemma replace_from_absent_upto old new x y :
  absent_upto x y old = true ->
  replace_from old new 0 (x ++ y) = x ++ replace_from old new 0 y.
Proof.
  induction x as [|c x IH]; intro H; [reflexivity|].
  change (absent_upto (c :: x) y old)
    with (negb (startswith ((c :: x) ++ y) old) && absent_upto x y old) in H.
  apply andb_true_iff in H as [H1 H2].
  apply negb_true_iff in H1.
  rewrite <- app_comm_cons, replace_from_cons, app_comm_cons, H1.
  now rewrite (IH H2).
Qed.

Lemma absent_upto_separator x y p sep :
  ~ In sep p -> contains x p = false ->
  absent_upto x (sep :: y) p = true.
Proof.
  intros Hsep. induction x as [|c x IH]; intro H; [reflexivity|].
  rewrite contains_cons in H. apply orb_false_iff in H as [H1 H2].
  change (absent_upto (c :: x) (sep :: y) p)
    with (negb (startswith ((c :: x) ++ sep :: y) p)
          && absent_upto x (sep :: y) p).
  rewrite (IH H2), andb_true_r.
  apply negb_true_iff.
  destruct (startswith ((c :: x) ++ sep :: y) p) eqn:E; [|reflexivity].
  apply startswith_before_separator in E; [congruence|exact Hsep].
Qed.

Lemma replace_from_absent old new s :
  contains s old = false -> replace_from old new 0 s = s.
Proof.
  induction s as [|c s IH]; intro H; [reflexivity|].
  rewrite contains_cons in H. apply orb_false_iff in H as [H1 H2].
  rewrite replace_from_cons, H1. now rewrite (IH H2).
Qed.

Lemma replace_absent s old new :
  contains s old = false -> replace s old new = s.
Proof.
  destruct old as [|a old]; intro H.
  - destruct s; discriminate.
  - now apply replace_from_absent.
Qed.

(** The scan over a line-delimited body the pattern does not occur in. *)
Lemma replace_from_body old new blob tail :
  old <> [] -> ~ In 10%N old -> contains blob old = false ->
  replace_from old new 0 (newline ++ blob ++ newline ++ tail)
  = newline ++ blob ++ newline ++ replace_from old new 0 tail.
Proof.
  intros Hne Hsep Habs.
  assert (Hnl : forall t, startswith (10%N :: t) old = false).
  { intro t. destruct old as [|a old]; [congruence|]. simpl.
    destruct (N.eqb_spec a 10); [|reflexivity].
    destruct Hsep. left. congruence. }
  unfold newline. simpl app.
  rewrite replace_from_cons, Hnl. f_equal.
  rewrite replace_from_absent_upto
    by (now apply absent_upto_separator).
  f_equal. now rewrite replace_from_cons, Hnl.
Qed.

(** *** [strip] *)

Lemma lstrip_split s :
  exists w, s = w ++ lstrip s.
Proof.
  induction s as [|c s [w IH]].
  - now exists [].
  - simpl. destruct (isspace c).
    + exists (c :: w). simpl. now f_equal.
    + now exists [].
Qed.

Lemma lstrip_head s :
  lstrip s = [] \/ exists c t, lstrip s = c :: t /\ isspace c = false.
Proof.
  induction s as [|c s IH]; simpl; [now left|].
  destruct (isspace c) eqn:E; [exact IH|].
  right. now exists c, s.
Qed.

Lemma lstrip_idem s : lstrip (lstrip s) = lstrip s.
Proof.
  destruct (lstrip_head s) as [->|[c [t [-> E]]]]; [reflexivity|].
  simpl. now rewrite E.
Qed.

Lemma lstrip_snoc x c :
  isspace c = false -> lstrip (x ++ [c]) = lstrip x ++ [c].
Proof.
  intro E. induction x as [|a x IH]; simpl.
  - now rewrite E.
  - now destruct (isspace a).
Qed.

Lemma rstrip_split s :
  exists w, s = rstrip s ++ w.
Proof.
  unfold rstrip. destruct (lstrip_split (rev s)) as [w H].
  exists (rev w). rewrite <- rev_app_distr, <- H.
  now rewrite rev_involutive.
Qed.

Lemma rstrip_cons c s :
  isspace c = false -> rstrip (c :: s) = c :: rstrip s.
Proof.
  intro E. unfold rstrip. simpl rev.
  rewrite (lstrip_snoc _ _ E), rev_app_distr. reflexivity.
Qed.

Lemma rstrip_snoc x c :
  isspace c = false -> rstrip (x ++ [c]) = x ++ [c].
Proof.
  intro E. unfold rstrip. rewrite rev_app_distr. simpl.
  rewrite E. simpl. now rewrite rev_involutive.
Qed.

Lemma rstrip_snoc_space x c :
  isspace c = true -> rstrip (x ++ [c]) = rstrip x.
Proof.
  intro E. unfold rstrip. rewrite rev_app_distr. simpl. now rewrite E.
Qed.

Lemma rstrip_idem s : rstrip (rstrip s) = rstrip s.
Proof.
  unfold rstrip. now rewrite rev_involutive, lstrip_idem.
Qed.

Lemma strip_idem s : strip (strip s) = strip s.
Proof.
  unfold strip.
  destruct (lstrip_head s) as [->|[c [t [-> E]]]]; [reflexivity|].
  rewrite (rstrip_cons _ _ E). simpl. rewrite E.
  rewrite (rstrip_cons _ _ E). now rewrite rstrip_idem.
Qed.

Lemma strip_snoc_space x c :
  isspace c = true -> strip (x ++ [c]) = strip x.
Proof.
  intro E. unfold strip. induction x as [|a x IH]; simpl.
  - now rewrite E.
  - destruct (isspace a); [exact IH|].
    now rewrite app_comm_cons, rstrip_snoc_space.
Qed.

Lemma contains_strip s p :
  contains s p = false -> contains (strip s) p = false.
Proof.
  intro H. unfold strip.
  destruct (lstrip_split s) as [w Hw]. rewrite Hw in H.
  apply contains_suffix in H.
  destruct (rstrip_split (lstrip s)) as [w' Hw']. rewrite Hw' in H.
  now apply contains_prefix in H.
Qed.

(** *** The cleaning of a reply *)

Lemma fence_tag_split : lit "```json" = lit "```" ++ lit "json".
Proof. reflexivity. Qed.

Lemma cleaned_without_fence text :
  contains text (lit "```") = false ->
  cleaned_response_text text = strip text.
Proof.
  intro H. unfold cleaned_response_text.
  apply contains_strip in H.
  assert (H7 : contains (strip text) (lit "```json") = false).
  { rewrite fence_tag_split.
    destruct (contains (strip text) (lit "```" ++ lit "json")) eqn:E;
      [|reflexivity].
    apply contains_shorter in E. congruence. }
  rewrite (replace_absent _ _ _ H7), (replace_absent _ _ _ H).
  apply strip_idem.
Qed.

Lemma strip_fenced tag blob : strip (fenced tag blob) = fenced tag blob.
Proof.
  assert (E : isspace 96%N = false) by reflexivity.
  assert (S : exists x, fenced tag blob = 96%N :: x ++ [96%N]).
  { unfold fenced.
    change (lit "```") with ([96; 96]%N ++ [96%N]) at 2.
    destruct tag.
    - exists (skipn 1 (lit "```json") ++ newline ++ blob ++ newline
                ++ [96; 96]%N).
      change (lit "```json") with (96%N :: skipn 1 (lit "```json")).
      simpl app. now rewrite <- !app_assoc.
    - exists (skipn 1 (lit "```") ++ newline ++ blob ++ newline
                ++ [96; 96]%N).
      change (lit "```") with (96%N :: skipn 1 (lit "```")) at 1.
      simpl app. now rewrite <- !app_assoc. }
  destruct S as [x ->]. unfold strip.
  change (lstrip (96%N :: x ++ [96%N])) with (96%N :: x ++ [96%N]).
  now rewrite app_comm_cons, (rstrip_snoc _ _ E).
Qed.

Lemma strip_between_newlines blob :
  strip (newline ++ blob ++ newline) = strip blob.
Proof.
  rewrite app_assoc. unfold newline at 2.
  rewrite strip_snoc_space by reflexivity.
  reflexivity.
Qed.

Lemma cleaned_fenced tag blob :
  contains blob (lit "```") = false ->
  cleaned_response_text (fenced tag blob) = strip blob.
Proof.
  intro H3. unfold cleaned_response_text. rewrite strip_fenced.
  assert (H7 : contains blob (lit "```json") = false).
  { rewrite fence_tag_split.
    destruct (contains blob (lit "```" ++ lit "json")) eqn:E;
      [|reflexivity].
    apply contains_shorter in E. congruence. }
  assert (N3 : ~ In 10%N (lit "```")) by (simpl; intuition discriminate).
  assert (N7 : ~ In 10%N (lit "```json")) by (simpl; intuition discriminate).
  assert (B : replace (fenced tag blob) (lit "```json") []
              = (if tag then [] else lit "```")
                  ++ newline ++ blob ++ newline ++ lit "```").
  { unfold replace, fenced.
    change (lit "```json") with [96; 96; 96; 106; 115; 111; 110]%N.
    destruct tag.
    - rewrite replace_from_match by discriminate.
      rewrite replace_from_body; trivial; discriminate.
    - rewrite replace_from_absent_upto by reflexivity.
      rewrite replace_from_body; trivial; discriminate. }
  rewrite B. clear B.
  assert (C : replace ((if tag then [] else lit "```")
                         ++ newline ++ blob ++ newline ++ lit "```")
                (lit "```") []
              = newline ++ blob ++ newline).
  { unfold replace.
    change (lit "```") with [96; 96; 96]%N.
    assert (R : replace_from [96; 96; 96]%N [] 0
                  (newline ++ blob ++ newline ++ [96; 96; 96]%N)
                = newline ++ blob ++ newline).
    { rewrite replace_from_body; trivial; discriminate. }
    destruct tag.
    - exact R.
    - rewrite replace_from_match by discriminate. exact R. }
  rewrite C. apply strip_between_newlines.
Qed.

End StringFacts.

Section CleaningFacts.
Variable float : Type.
Variable json_loads : str -> exn + value float.

(** C6, for texts that hold no fence: on a reply without the three
    backquotes, the cleaning only trims the white space around it, and is
    the identity when there is none.  A blob without them that is wrapped
    in a code fence, with or without the [json] tag, is cleaned to the
    trimmed blob; when [json.loads] takes no notice of the white space
    around the blob, as it does for a JSON text, parsing the cleaned
    wrapping gives what parsing the blob itself gives. *)
Theorem cleaning_without_inner_fence text :
  contains text (lit "```") = false ->
  cleaned_response_text text = strip text
  /\ (strip text = text -> cleaned_response_text text = text)
  /\ (forall tag, cleaned_response_text (fenced tag text) = strip text)
  /\ (json_loads (strip text) = json_loads text ->
      forall tag,
        json_loads (cleaned_response_text (fenced tag text))
        = json_loads text).
Proof.
  intro H. pose proof (cleaned_without_fence text H) as E.
  split; [exact E|]. split; [congruence|].
  split; [intro tag; now apply cleaned_fenced|].
  intros W tag. now rewrite (cleaned_fenced tag text H).
Qed.

End CleaningFacts.

(** ** The prompt *)

Section PromptFacts.
Variable float : Type.
Variable json_dumps : value float -> str.

Lemma infix_within before sub after : infix sub (before ++ sub ++ after).
Proof. now exists before, after. Qed.

Lemma infix_trans a b c : infix a b -> infix b c -> infix a c.
Proof.
  intros [x [y ->]] [u [v ->]].
  exists (u ++ x), (y ++ v). now rewrite <- !app_assoc.
Qed.

Lemma infix_join sep parts l : In l parts -> infix l (join sep parts).
Proof.
  induction parts as [|p rest IH]; intro H; [destruct H|].
  destruct H as [->|H].
  - destruct rest as [|r rest].
    + exists [], []. simpl. now rewrite app_nil_r.
    + exact (infix_within [] l (sep ++ join sep (r :: rest))).
  - destruct rest as [|r rest]; [destruct H|].
    apply infix_trans with (join sep (r :: rest)); [now apply IH|].
    exists (p ++ sep), []. simpl join.
    now rewrite app_nil_r, <- app_assoc.
Qed.

Lemma before_char_split c s :
  s = before_char c s ++ skipn (length (before_char c s)) s.
Proof.
  induction s as [|a s IH]; simpl; [reflexivity|].
  destruct (a =? c)%N; simpl; [reflexivity|]. now f_equal.
Qed.

Lemma infix_signature entry : infix (signature entry) entry.
Proof.
  unfold signature. exists (firstn 2 entry).
  eexists. rewrite <- before_char_split. symmetry. apply firstn_skipn.
Qed.

Lemma infix_prompt_line snapshot msg x :
  In (indent ++ x) (prompt_lines snapshot msg) ->
  infix x (join newline (prompt_lines snapshot msg)).
Proof.
  intro H. apply infix_trans with (indent ++ x).
  - exists indent, []. now rewrite app_nil_r.
  - now apply infix_join.
Qed.

Lemma prompt_lines_catalog snapshot msg entry :
  In entry available_functions ->
  In (indent ++ entry) (prompt_lines snapshot msg).
Proof.
  intro H. unfold prompt_lines. apply in_or_app. right.
  apply in_or_app. left. exact (in_map (app indent) _ _ H).
Qed.

Lemma prompt_lines_contract snapshot msg line :
  In line output_contract ->
  In (indent ++ line) (prompt_lines snapshot msg).
Proof.
  intro H. unfold prompt_lines. do 3 (apply in_or_app; right).
  apply in_or_app. left. exact (in_map (app indent) _ _ H).
Qed.

Lemma prompt_lines_example snapshot msg line :
  In line example_response ->
  In (indent ++ line) (prompt_lines snapshot msg).
Proof.
  intro H. unfold prompt_lines. do 5 (apply in_or_app; right).
  apply in_or_app. left. exact (in_map (app indent) _ _ H).
Qed.

(** C8, with the catalog as the source has it: for every snapshot and
    message, the prompt holds the role statement, the text [json.dumps]
    gives for the snapshot (whatever that is, the empty text too), each of
    the 23 lines of the catalog with its signature, the message between
    double quotes, the three lines of the output contract naming the keys
    ['message'] and ['functions'], and the worked example. *)
Theorem prompt_holds_every_part (request : LLMRequest float) :
  let p := prompt json_dumps request in
  infix (lit "You are a spreadsheet assistant.") p
  /\ infix role_statement p
  /\ infix (json_dumps (VDict (data request))) p
  /\ length available_functions = 23
  /\ map signature available_functions
     = [ lit "update_cell(col, row, value)"; lit "remove_cell(col, row)";
         lit "get_cell(col, row)"; lit "sum_col(col)"; lit "avg_col(col)";
         lit "count_col(col)"; lit "max_col(col)"; lit "min_col(col)";
         lit "add_col(col)"; lit "del_col(col)"; lit "sum_row(row)";
         lit "avg_row(row)"; lit "count_row(row)"; lit "max_row(row)";
         lit "min_row(row)"; lit "add_row(row)"; lit "del_row(row)";
         lit "sum_range(startCol, startRow, endCol, endRow)";
         lit "avg_range(startCol, startRow, endCol, endRow)";
         lit "clear_range(startCol, startRow, endCol, endRow)";
         lit "clear_all()"; lit "find_cell(value)";
         lit "replace_all(oldValue, newValue)" ]
  /\ (forall entry, In entry available_functions ->
        infix entry p /\ infix (signature entry) p)
  /\ infix (lit "User Message: " ++ dquote ++ message request ++ dquote) p
  /\ infix (message request) p
  /\ infix (lit "Your response must be a JSON object with two keys: 'message' and 'functions'.") p
  /\ (forall line, In line output_contract -> infix line p)
  /\ (forall line, In line example_response -> infix line p).
Proof.
  intro p. unfold p, prompt.
  set (snapshot := json_dumps (VDict (data request))).
  set (msg := message request).
  assert (R : infix role_statement
                (join newline (prompt_lines snapshot msg))).
  { apply infix_prompt_line. unfold prompt_lines. simpl. tauto. }
  assert (U : infix (user_message_line msg)
                (join newline (prompt_lines snapshot msg))).
  { apply infix_prompt_line. unfold prompt_lines.
    do 2 (apply in_or_app; right). apply in_or_app. left. simpl. tauto. }
  assert (C : forall line, In line output_contract ->
                infix line (join newline (prompt_lines snapshot msg))).
  { intros line H. apply infix_prompt_line.
    now apply prompt_lines_contract. }
  repeat split.
  - apply infix_trans with role_statement; [|exact R].
    exists [], (skipn 32 role_statement). reflexivity.
  - exact R.
  - apply infix_prompt_line. unfold prompt_lines. simpl. tauto.
  - apply infix_prompt_line. now apply prompt_lines_catalog.
  - apply infix_trans with entry.
    + apply infix_signature.
    + apply infix_prompt_line. now apply prompt_lines_catalog.
  - exact U.
  - apply infix_trans with (user_message_line msg); [|exact U].
    unfold user_message_line.
    exists (lit "User Message: " ++ dquote), dquote.
    now rewrite <- !app_assoc.
  - apply C. simpl. tauto.
  - exact C.
  - intros line H. apply infix_prompt_line.
    now apply prompt_lines_example.
Qed.

End PromptFacts.

(** ** The decoder *)

Section JsonFacts.
Variable float : Type.
Variable float_of_literal : str -> float.

Lemma consumes_le {A} n m (r : scan A) : n <= m -> consumes n r -> consumes m r.
Proof. intros H. destruct r as [[msg from|]|[a rest]]; simpl; auto. lia. Qed.

Lemma skip_ws_length s : length (skip_ws s) <= length s.
Proof.
  induction s as [|c s IH]; simpl; [lia|].
  destruct (is_ws c); simpl; lia.
Qed.

Lemma head_is_length c s : head_is c s = true -> length s = S (length (tl s)).
Proof. destruct s; [discriminate|reflexivity]. Qed.

Lemma scanstring_consumes n : forall s from acc,
  length s <= n -> consumes (S (length s)) (scanstring from acc s).
Proof.
  induction n as [|n IH]; intros s from acc Hn.
  - destruct s; [exact I|simpl in Hn; lia].
  - assert (K : forall t a, length t < length s ->
                  consumes (S (length s)) (scanstring from a t)).
    { intros t a Ht. apply consumes_le with (S (length t)); [lia|].
      apply IH. lia. }
    destruct s as [|c t]; [exact I|]. simpl scanstring.
    destruct (c =? 34)%N; [simpl; lia|].
    destruct (c =? 92)%N.
    + destruct t as [|e t']; [exact I|].
      destruct (e =? 117)%N.
      * destruct t' as [|h1 [|h2 [|h3 [|h4 [|b t'']]]]]; try exact I.
        destruct (decode_hex4 h1 h2 h3 h4); [|exact I].
        destruct t'' as [|u [|l1 [|l2 [|l3 [|l4 [|c7 t3]]]]]];
          try (apply K; simpl; lia).
        destruct (if starts_escape_u _ then _ else _);
          [|apply K; simpl; lia].
        destruct (surrogate_pair _ _); apply K; simpl; lia.
      * destruct (unescape e); [|exact I]. apply K. simpl. lia.
    + destruct (c <? 32)%N; [exact I|]. apply K. simpl. lia.
Qed.

Lemma span_digits_length s : length (snd (span_digits s)) <= length s.
Proof.
  induction s as [|c s IH]; simpl; [lia|].
  destruct (is_digit c); [|simpl; lia].
  destruct (span_digits s). simpl in *. lia.
Qed.

Lemma match_optional_length allowed s :
  length (snd (match_optional allowed s)) <= length s.
Proof.
  destruct s as [|c t]; simpl; [lia|].
  destruct (existsb (N.eqb c) allowed); simpl; lia.
Qed.

Lemma match_integer_consumes s x r :
  match_integer s = Some (x, r) -> length r < length s.
Proof.
  unfold match_integer.
  pose proof (match_optional_length (lit "-") s) as L.
  destruct (match_optional (lit "-") s) as [sign s']. simpl in L.
  destruct s' as [|c t]; [discriminate|].
  destruct (c =? 48)%N.
  - intro H. injection H as _ <-. simpl in L. lia.
  - destruct (is_digit c) eqn:D; [|discriminate].
    pose proof (span_digits_length t) as T.
    simpl. rewrite D. destruct (span_digits t) as [ds r'].
    intro H. injection H as _ <-. simpl in *. lia.
Qed.

Lemma match_frac_length s : length (snd (match_frac s)) <= length s.
Proof.
  destruct s as [|c t]; simpl; [lia|].
  destruct (c =? 46)%N; [|simpl; lia].
  pose proof (span_digits_length t) as T.
  destruct (span_digits t) as [[|d ds] r]; simpl in *; lia.
Qed.

Lemma match_exp_length s : length (snd (match_exp s)) <= length s.
Proof.
  destruct s as [|e t]; simpl; [lia|].
  destruct ((e =? 101) || (e =? 69))%N; [|simpl; lia].
  pose proof (match_optional_length (lit "-+") t) as O.
  destruct (match_optional (lit "-+") t) as [sign t'].
  pose proof (span_digits_length t') as T.
  destruct (span_digits t') as [[|d ds] r]; simpl in *; lia.
Qed.

Lemma match_number_consumes s v r :
  match_number float_of_literal s = Some (v, r) -> length r < length s.
Proof.
  unfold match_number.
  destruct (match_integer s) as [[integer r1]|] eqn:I; [|discriminate].
  apply match_integer_consumes in I.
  pose proof (match_frac_length r1) as F.
  destruct (match_frac r1) as [frac r2].
  pose proof (match_exp_length r2) as E.
  destruct (match_exp r2) as [exp r3]. simpl in *.
  destruct frac, exp; intro H; injection H as _ <-; lia.
Qed.

Lemma match_constant_consumes (table : list (str * value float)) s v r :
  forallb (fun entry => negb (str_eqb (fst entry) [])) table = true ->
  match_constant table s = Some (v, r) -> length r < length s.
Proof.
  induction table as [|[name w] table IH]; simpl; [discriminate|].
  intro N. apply andb_true_iff in N as [N1 N2].
  destruct (startswith s name) eqn:P; [|now apply IH].
  intro H. injection H as _ <-.
  destruct name as [|a name]; [discriminate|].
  destruct s as [|b s]; [discriminate|].
  simpl. pose proof (length_skipn (length name) s). lia.
Qed.

Local Arguments match_constant : simpl never.

Lemma scan_consumes fuel :
  (forall s, 2 * length s + 1 <= fuel ->
     consumes (length s) (scan_once float_of_literal fuel s))
  /\ (forall acc s, 2 * length s + 2 <= fuel ->
        consumes (length s) (array_items float_of_literal fuel acc s))
  /\ (forall acc s, 2 * length s + 2 <= fuel ->
        consumes (length s) (object_items float_of_literal fuel acc s)).
Proof.
  induction fuel as [|fuel [IHs [IHa IHo]]].
  - repeat split; intros; lia.
  - repeat split.
    + intros s F. simpl scan_once.
      destruct (head_is 34 s) eqn:Q.
      { pose proof (scanstring_consumes (length (tl s)) (tl s)
                      (length s) [] (le_n _)) as S.
        apply head_is_length in Q.
        destruct (scanstring (length s) [] (tl s)) as [[msg from|]|[x r]];
          simpl in *; trivial; lia. }
      destruct (head_is 123 s) eqn:B.
      { apply head_is_length in B.
        pose proof (skip_ws_length (tl s)) as W.
        cbv zeta.
        destruct (head_is 125 (skip_ws (tl s))) eqn:C.
        - apply head_is_length in C. simpl. lia.
        - destruct (head_is 34 (skip_ws (tl s))); [|exact I].
          apply consumes_le with (length (skip_ws (tl s))); [lia|].
          apply IHo. lia. }
      destruct (head_is 91 s) eqn:A.
      { apply head_is_length in A.
        pose proof (skip_ws_length (tl s)) as W.
        cbv zeta.
        destruct (head_is 93 (skip_ws (tl s))) eqn:C.
        - apply head_is_length in C. simpl. lia.
        - apply consumes_le with (length (skip_ws (tl s))); [lia|].
          apply IHa. lia. }
      destruct (match_constant (constants float) s) as [[v r]|] eqn:C.
      { apply match_constant_consumes in C; [exact C|reflexivity]. }
      destruct (match_number float_of_literal s) as [[v r]|] eqn:N.
      { now apply match_number_consumes in N. }
      match goal with
      | |- context [match_constant ?table s] =>
          destruct (match_constant table s) as [[v r]|] eqn:C'; [|exact I]
      end.
      apply match_constant_consumes in C'; [exact C'|reflexivity].
    + intros acc s F. simpl array_items.
      pose proof (IHs s ltac:(lia)) as S.
      destruct (scan_once float_of_literal fuel s) as [[msg from|]|[v r]];
        simpl in S; [exact I | destruct S |].
      pose proof (skip_ws_length r) as W. cbv zeta.
      destruct (head_is 93 (skip_ws r)) eqn:C.
      * apply head_is_length in C. simpl. lia.
      * destruct (head_is 44 (skip_ws r)) eqn:D; [|exact I].
        apply head_is_length in D.
        pose proof (skip_ws_length (tl (skip_ws r))) as W'.
        apply consumes_le with (length (skip_ws (tl (skip_ws r)))); [lia|].
        apply IHa. lia.
    + intros acc s F. simpl object_items.
      destruct (head_is 34 s) eqn:Q; [|exact I].
      pose proof (scanstring_consumes (length (tl s)) (tl s)
                    (length s) [] (le_n _)) as S.
      apply head_is_length in Q.
      destruct (scanstring (length s) [] (tl s)) as [[msg from|]|[key r]];
        simpl in S; [exact I | destruct S |].
      pose proof (skip_ws_length r) as W. cbv zeta.
      destruct (head_is 58 (skip_ws r)) eqn:C; [|exact I].
      apply head_is_length in C.
      pose proof (skip_ws_length (tl (skip_ws r))) as W1.
      pose proof (IHs (skip_ws (tl (skip_ws r))) ltac:(lia)) as V.
      destruct (scan_once float_of_literal fuel (skip_ws (tl (skip_ws r))))
        as [[msg from|]|[v r2]]; simpl in V; [exact I | destruct V |].
      pose proof (skip_ws_length r2) as W2.
      destruct (head_is 125 (skip_ws r2)) eqn:E.
      * apply head_is_length in E. simpl. lia.
      * destruct (head_is 44 (skip_ws r2)) eqn:D; [|exact I].
        apply head_is_length in D.
        pose proof (skip_ws_length (tl (skip_ws r2))) as W3.
        apply consumes_le with (length (skip_ws (tl (skip_ws r2)))); [lia|].
        apply IHo. lia.
Qed.

Lemma JSONDecodeError_class msg doc pos :
  exn_class (JSONDecodeError msg doc pos) = lit "JSONDecodeError".
Proof. unfold JSONDecodeError. now destruct (line_col doc pos 1 1). Qed.

(** [loads] never reaches the bound on the calls: a failure is a
    [JSONDecodeError]. *)
Lemma loads_raises_only_JSONDecodeError s e :
  loads float_of_literal s = inl e -> exn_class e = lit "JSONDecodeError".
Proof.
  unfold loads.
  destruct (head_is 65279 s).
  { intro H. injection H as <-. apply JSONDecodeError_class. }
  pose proof (skip_ws_length s) as W.
  pose proof (proj1 (scan_consumes (2 * length s + 2)) (skip_ws s)
                ltac:(lia)) as C.
  destruct (scan_once float_of_literal (2 * length s + 2) (skip_ws s))
    as [[msg from|]|[obj r]]; simpl in C.
  - intro H. injection H as <-. apply JSONDecodeError_class.
  - destruct C.
  - destruct (skip_ws r); [discriminate|].
    intro H. injection H as <-. apply JSONDecodeError_class.
Qed.
End JsonFacts.

(** ** The scenarios *)

Section ScenarioFacts.
Import Scenario.

Local Abbreviation gateway reply :=
  (execute_llm_request strict (replies reply) json_dumps json_loads).

Local Abbreviation reply_of text :=
  (replies text (apiKey request) (prompt json_dumps request)).

Local Abbreviation parsed text := (json_loads (cleaned_response_text text)).

Local Abbreviation execute_command call :=
  (Emit (lit "execute_command") (VDict [(lit "command", call)])).

Local Abbreviation status_message st msg :=
  (VDict [(lit "status", VStr (lit st)); (lit "message", msg)]
   : value float).

(** Scenario 1: both calls are emitted, in order, and the message comes
    back. *)
Example sum_column_scenario :
  run reply_done
  = (inr (status_message "success" (VStr (lit "Done"))),
     [ execute_command (VStr (lit "sum_col('A')"));
       execute_command (VStr (lit "update_cell('B',1,'SUM_RESULT')")) ]).
Proof. vm_compute. reflexivity. Qed.

(** A failure of the model invocation comes back as status error. *)
Example invalid_key_scenario :
  execute_llm_request strict (fails invalid_key) json_dumps json_loads
    request []
  = (inr (status_message "error" (VStr (lit "400 API key not valid."))), []).
Proof. vm_compute. reflexivity. Qed.





(** C3, on the reply with the lone surrogate: the parsed response lists
    three calls, all of them strings, and the loop emits one event, for
    the first; the [print] of the second raises and the third is never
    reached.  So it is under either error handler of the standard
    output. *)
Theorem lone_surrogate_call_cuts_the_dispatch (errors : error_handler) :
  parsed reply_lone_surrogate = inr (VDict response_lone_surrogate)
  /\ dispatched response_lone_surrogate
     = [VStr (lit "a"); VStr [55357%N]; VStr (lit "b")]
  /\ dispatch errors (dispatched response_lone_surrogate) []
     = (inl (Exception (lit "UnicodeEncodeError") lone_surrogate_error),
        [execute_command (VStr (lit "a"))])
  /\ snd (run_with errors reply_lone_surrogate)
     = [execute_command (VStr (lit "a"))]
  /\ length (snd (run_with errors reply_lone_surrogate)) = 1.
Proof. destruct errors; repeat split; vm_compute; reflexivity. Qed.


(** C7, on the reply with the lone surrogate: the reply parses to a
    response whose ['message'] is the string [m] and whose ['functions']
    is a list of strings, and the handler returns status error, with the
    text of the [UnicodeEncodeError] and not that message. *)
Theorem parsed_reply_with_message_answers_error (errors : error_handler) :
  parsed reply_lone_surrogate = inr (VDict response_lone_surrogate)
  /\ dict_get response_lone_surrogate (lit "message")
     = Some (VStr (lit "m"))
  /\ fst (run_with errors reply_lone_surrogate)
     = inr (status_message "error" (VStr lone_surrogate_error))
  /\ fst (run_with errors reply_lone_surrogate)
     <> inr (status_message "success" (VStr (lit "m"))).
Proof.
  destruct errors.
  all: split; [vm_compute; reflexivity|].
  all: split; [reflexivity|].
  all: split; [vm_compute; reflexivity|].
  all: vm_compute; discriminate.
Qed.




(** The cleaning changes what is parsed.  A form feed before the JSON is
    no fence markup: [json.loads] rejects the text as it stands and accepts
    the cleaned one.  And a JSON text that quotes a fence in a string loses
    it when cleaned. *)
Lemma cleaning_is_not_a_no_op :
  (contains reply_form_feed (lit "```") = false
   /\ cleaned_response_text reply_form_feed = lit "{}"
   /\ json_loads reply_form_feed = inl not_json_error
   /\ parsed reply_form_feed = inr (VDict []))
  /\ (json_loads reply_backticks
      = inr (VDict [(lit "message", VStr (lit "Use ``` around code"));
                    (lit "functions", VList [])])
      /\ parsed (fenced true reply_backticks)
         = inr (VDict [(lit "message", VStr (lit "Use  around code"));
                       (lit "functions", VList [])])).
Proof. repeat split; vm_compute; reflexivity. Qed.

(** The blob of scenario 1 with a space before it and a line break after
    it: the cleaning of the blob and of its fenced wrappings trims it, and
    all of them parse to what the blob parses to. *)
Lemma cleaning_without_inner_fence_witness :
  contains reply_padded (lit "```") = false
  /\ json_loads (strip reply_padded) = json_loads reply_padded
  /\ strip reply_padded <> reply_padded
  /\ cleaned_response_text reply_padded = strip reply_padded
  /\ (forall tag,
        cleaned_response_text (fenced tag reply_padded) = strip reply_padded)
  /\ (forall tag,
        parsed (fenced tag reply_padded) = json_loads reply_padded).
Proof.
  assert (H : contains reply_padded (lit "```") = false)
    by (vm_compute; reflexivity).
  assert (W : json_loads (strip reply_padded) = json_loads reply_padded)
    by (vm_compute; reflexivity).
  split; [exact H|]. split; [exact W|].
  split; [vm_compute; discriminate|].
  destruct (cleaning_without_inner_fence float json_loads reply_padded H)
    as [A [_ [B C]]].
  split; [exact A|]. split; [exact B|]. exact (C W).
Defined.

(** The catalog the prompt shows has 23 lines, not 20. *)
Lemma prompt_catalog_is_not_20_operations :
  json_dumps (VDict (data empty_request)) = lit "{}"
  /\ catalog_of (prompt json_dumps empty_request)
     = map (app indent) available_functions
  /\ length (catalog_of (prompt json_dumps empty_request)) = 23
  /\ length (catalog_of (prompt json_dumps empty_request)) <> 20.
Proof.
  repeat split; try (vm_compute; reflexivity).
  vm_compute. discriminate.
Qed.

(** A payload whose ['result'] is a lone surrogate: the key is there, and
    the handler raises on its log line, under either error handler of the
    standard output. *)
Lemma result_with_lone_surrogate_raises :
  dict_get [(lit "result", VStr [55357%N] : value float)] (lit "result")
  = Some (VStr [55357%N])
  /\ handle_function_result strict sid result_lone_surrogate []
     = (inl (Exception (lit "UnicodeEncodeError")
               (lit "'utf-8' codec can't encode character '\ud83d' in position 34: surrogates not allowed")),
        [])
  /\ handle_function_result surrogateescape sid result_lone_surrogate []
     = handle_function_result strict sid result_lone_surrogate []
  /\ handle_function_result strict sid result_done [] = (inr VNone, []).
Proof. repeat split; vm_compute; reflexivity. Qed.

End ScenarioFacts.

(** * Further properties of the handlers *)

Section FurtherGatewayFacts.
Variable float : Type.
Variable errors : error_handler.
Variable generate_content : str -> str -> exn + str.
Variable json_dumps : value float -> str.
Variable json_loads : str -> exn + value float.

Local Abbreviation value := (value float).
Local Abbreviation emission := (emission float).
Local Abbreviation handler :=
  (execute_llm_request errors generate_content json_dumps json_loads).
Local Abbreviation body :=
  (try_body errors generate_content json_dumps json_loads).

Implicit Types (request : LLMRequest float) (tr : list emission)
  (d : list (str * value)) (text : str).



Lemma commands_are_execute_commands (functions : list value) :
  Forall (@is_execute_command float) (commands functions).
Proof.
  induction functions as [|f l IH]; constructor; [|exact IH].
  split; [reflexivity|]. now exists f.
Qed.

(** X3: the handler only adds to the emissions made before it ran, and what
    it adds are [execute_command] events with a payload of the one key
    ['command']; it emits no other event. *)
Theorem only_execute_command_is_emitted request tr :
  exists out,
    snd (handler request tr) = tr ++ out
    /\ Forall (@is_execute_command float) out.
Proof.
  destruct (handler_emissions float errors generate_content json_dumps
              json_loads request tr) as [H|[text [d [_ [_ H]]]]].
  - exists []. split; [now rewrite app_nil_r|constructor].
  - exists (commands (printable_prefix errors (dispatched d))). split.
    + exact H.
    + apply commands_are_execute_commands.
Qed.


(** X12: the loop stops at the first call whose log line cannot be
    printed.  The calls before it have been emitted, in order; the loop
    raises the [UnicodeEncodeError] of that line, and neither that call
    nor a later one is emitted. *)
Theorem dispatch_stops_at_unprintable_call
    (pre post : list value) (func_call : value) tr :
  forallb (printable errors) pre = true ->
  printable errors func_call = false ->
  dispatch errors (pre ++ func_call :: post) tr
  = (inl (UnicodeEncodeError errors
            (lit "Emitting command: " ++ str_text func_call)),
     tr ++ commands pre).
Proof.
  intros P U. rewrite dispatch_run.
  destruct (first_unprintable_split float errors pre func_call post P U)
    as [A B].
  now rewrite A, B.
Qed.



End FurtherGatewayFacts.

Section FurtherResultFacts.
Variable float : Type.
Variable errors : error_handler.

(** X5: [handle_function_result] emits nothing and returns [None] when it
    returns.  When it fails, a payload that is no dict raised [TypeError],
    a dict without ['result'] raised [KeyError] (its text the quoted key),
    and a dict with ['result'] raised the [UnicodeEncodeError] of the line
    it logs. *)
Theorem function_result_failure_modes
    (sid : str) (data : value float) (tr : list (emission float)) :
  snd (handle_function_result errors sid data tr) = tr
  /\ (forall r, fst (handle_function_result errors sid data tr) = inr r ->
        r = VNone)
  /\ (forall e, fst (handle_function_result errors sid data tr) = inl e ->
        match data with
        | VDict d =>
            match dict_get d (lit "result") with
            | None =>
                exn_class e = lit "KeyError" /\ exn_str e = lit "'result'"
            | Some v =>
                e = UnicodeEncodeError errors
                      (lit "Received result from client " ++ sid
                         ++ lit ": " ++ str_text v)
            end
        | _ => exn_class e = lit "TypeError"
        end).
Proof.
  destruct data as [| | | | | |d];
    try (split; [reflexivity|]; split;
         [ intros r H; discriminate H
         | intros e H; injection H as <-; reflexivity ]).
  destruct (dict_get d (lit "result")) as [v|] eqn:R.
  - rewrite (function_result_logged float errors sid d v tr R).
    destruct (encodable errors sid && printable errors v); simpl;
      (split; [reflexivity|]; split).
    + intros r H. now injection H as <-.
    + intros e H. discriminate H.
    + intros r H. discriminate H.
    + intros e H. now injection H as <-.
  - unfold handle_function_result, bind, py_getitem. rewrite R. simpl.
    split; [reflexivity|]. split.
    + intros r H. discriminate H.
    + intros e H. injection H as <-. split; reflexivity.
Qed.

End FurtherResultFacts.

Section FurtherPromptFacts.
Variable float : Type.
Variable json_dumps : value float -> str.

Lemma join_app sep a b :
  a <> [] -> b <> [] ->
  join sep (a ++ b) = join sep a ++ sep ++ join sep b.
Proof.
  intros Ha Hb. induction a as [|x a IH]; [congruence|].
  destruct a as [|y a].
  - simpl. destruct b; [congruence|reflexivity].
  - change (join sep ((x :: y :: a) ++ b))
      with (x ++ sep ++ join sep ((y :: a) ++ b)).
    rewrite IH by discriminate.
    change (join sep (x :: y :: a)) with (x ++ sep ++ join sep (y :: a)).
    now rewrite <- !app_assoc.
Qed.

Lemma join_cons_nonempty sep x b :
  b <> [] -> join sep (x :: b) = x ++ sep ++ join sep b.
Proof. destruct b; [congruence|reflexivity]. Qed.

Lemma join_two_fields sep a x b y c :
  a <> [] -> b <> [] -> c <> [] ->
  join sep (a ++ [x] ++ b ++ [y] ++ c)
  = join sep a ++ sep ++ x ++ sep ++ join sep b
      ++ sep ++ y ++ sep ++ join sep c.
Proof.
  intros Ha Hb Hc.
  assert (Hyc : [y] ++ c <> []) by discriminate.
  assert (Hb' : b ++ [y] ++ c <> []) by (destruct b; [congruence|discriminate]).
  rewrite join_app by (trivial; discriminate).
  change ([x] ++ b ++ [y] ++ c) with (x :: b ++ [y] ++ c).
  rewrite join_cons_nonempty by exact Hb'.
  rewrite join_app by trivial.
  change ([y] ++ c) with (y :: c).
  rewrite join_cons_nonempty by exact Hc.
  reflexivity.
Qed.

(** X6: the prompt is a fixed text with two holes, filled in this order by
    the serialized snapshot and by the message, each inserted as it is.  The
    role statement comes before the snapshot, the catalog between the two,
    the output contract and the example after the message; nothing else of
    the request, the API key in particular, enters the prompt. *)
Theorem prompt_is_fixed_text_around_two_fields (request : LLMRequest float) :
  prompt json_dumps request
  = prompt_before ++ json_dumps (VDict (data request))
      ++ prompt_between ++ message request ++ prompt_after
  /\ infix role_statement prompt_before
  /\ (forall entry, In entry available_functions ->
        infix entry prompt_between)
  /\ (forall line, In line output_contract -> infix line prompt_after)
  /\ (forall line, In line example_response -> infix line prompt_after).
Proof.
  assert (I : forall x, infix x (indent ++ x))
    by (intro x; exists indent, []; now rewrite app_nil_r).
  split; [|repeat split].
  - unfold prompt. set (snapshot := json_dumps (VDict (data request))).
    set (msg := message request).
    change (prompt_lines snapshot msg)
      with ([ []; indent ++ role_statement; [];
              indent ++ lit "Spreadsheet Data:" ]
              ++ [indent ++ snapshot]
              ++ ([ []; indent ++ lit "Available Functions:" ]
                    ++ map (app indent) available_functions ++ [ [] ])
              ++ [indent ++ user_message_line msg]
              ++ ([ [] ] ++ map (app indent) output_contract ++ [ [] ]
                    ++ map (app indent) example_response ++ [ indent ])).
    rewrite join_two_fields by discriminate.
    unfold prompt_before, prompt_between, prompt_after, user_message_line.
    now rewrite <- !app_assoc.
  - unfold prompt_before.
    apply infix_trans with (indent ++ role_statement); [apply I|].
    apply infix_trans
      with (join newline [ []; indent ++ role_statement; [];
                           indent ++ lit "Spreadsheet Data:" ]).
    + apply infix_join. simpl. tauto.
    + exact (infix_within [] _ (newline ++ indent)).
  - intros entry H. unfold prompt_between.
    apply infix_trans with (indent ++ entry); [apply I|].
    apply infix_trans
      with (join newline
              ([ []; indent ++ lit "Available Functions:" ]
                 ++ map (app indent) available_functions ++ [ [] ])).
    + apply infix_join. apply in_or_app. right. apply in_or_app. left.
      exact (in_map (app indent) _ _ H).
    + apply infix_within.
  - intros line H. unfold prompt_after.
    apply infix_trans with (indent ++ line); [apply I|].
    apply infix_trans
      with (join newline
              ([ [] ] ++ map (app indent) output_contract ++ [ [] ]
                 ++ map (app indent) example_response ++ [ indent ])).
    + apply infix_join. apply in_or_app. right. apply in_or_app. left.
      exact (in_map (app indent) _ _ H).
    + exists (dquote ++ newline), []. now rewrite app_nil_r, <- app_assoc.
  - intros line H. unfold prompt_after.
    apply infix_trans with (indent ++ line); [apply I|].
    apply infix_trans
      with (join newline
              ([ [] ] ++ map (app indent) output_contract ++ [ [] ]
                 ++ map (app indent) example_response ++ [ indent ])).
    + apply infix_join. do 3 (apply in_or_app; right).
      apply in_or_app. left. exact (in_map (app indent) _ _ H).
    + exists (dquote ++ newline), []. now rewrite app_nil_r, <- app_assoc.
Qed.

End FurtherPromptFacts.

Section FurtherCleaningFacts.
Implicit Types (s x y : str) (c : char).

Lemma subseq_refl s : subseq s s.
Proof. induction s; constructor; assumption. Qed.

Lemma subseq_suffix w s : subseq s (w ++ s).
Proof.
  induction w as [|c w IH]; [apply subseq_refl|].
  simpl. now constructor.
Qed.

Lemma subseq_prefix s w : subseq s (s ++ w).
Proof.
  induction s as [|c s IH]; simpl.
  - induction w; constructor; assumption.
  - now constructor.
Qed.

Lemma subseq_trans x y s : subseq x y -> subseq y s -> subseq x s.
Proof.
  intros H1 H2. revert x H1.
  induction H2 as [|c y s H2 IH|c y s H2 IH]; intros x H1.
  - exact H1.
  - constructor. now apply IH.
  - inversion H1; subst.
    + constructor. now apply IH.
    + apply subseq_keep. now apply IH.
Qed.

Lemma subseq_length x s : subseq x s -> length x <= length s.
Proof. induction 1; simpl; lia. Qed.

Lemma subseq_strip s : subseq (strip s) s.
Proof.
  unfold strip. apply subseq_trans with (lstrip s).
  - destruct (rstrip_split (lstrip s)) as [w H].
    rewrite H at 2. apply subseq_prefix.
  - destruct (lstrip_split s) as [w H].
    rewrite H at 2. apply subseq_suffix.
Qed.

Lemma subseq_replace_from old skip s :
  subseq (replace_from old [] skip s) s.
Proof.
  revert skip. induction s as [|c s IH]; intro skip; simpl.
  - constructor.
  - destruct skip as [|k].
    + destruct (match old with
                | [] => true
                | a :: p' => (a =? c)%N && startswith s p'
                end).
      * simpl. constructor. apply IH.
      * apply subseq_keep. apply IH.
    + constructor. apply IH.
Qed.

(** X7: cleaning a reply only deletes characters: the cleaned text is the
    reply with some characters left out, none added, changed or moved. *)
Theorem cleaning_only_deletes (text : str) :
  subseq (cleaned_response_text text) text
  /\ length (cleaned_response_text text) <= length text.
Proof.
  assert (H : subseq (cleaned_response_text text) text).
  { unfold cleaned_response_text.
    apply subseq_trans with (strip text); [|apply subseq_strip].
    apply subseq_trans
      with (replace (strip text) (lit "```json") []).
    - apply subseq_trans
        with (replace (replace (strip text) (lit "```json") [])
                (lit "```") []); [apply subseq_strip|].
      apply subseq_replace_from.
    - apply subseq_replace_from. }
  split; [exact H|]. now apply subseq_length.
Qed.

Lemma startswith_cons a p c s :
  startswith (c :: s) (a :: p) = (a =? c)%N && startswith s p.
Proof. reflexivity. Qed.

Lemma startswith_empty a p : startswith [] (a :: p) = false.
Proof. reflexivity. Qed.

(** The scan for the fence leaves no fence, and no two backquotes at the
    head of a text that had none. *)
Lemma replace_fence_clears n : forall s,
  length s <= n ->
  contains (replace_from [96; 96; 96]%N [] 0 s) [96; 96; 96]%N = false
  /\ (startswith s [96; 96]%N = false ->
      startswith (replace_from [96; 96; 96]%N [] 0 s) [96; 96]%N = false).
Proof.
  induction n as [|n IH]; intros s Hn.
  - destruct s; [split; reflexivity|simpl in Hn; lia].
  - destruct s as [|c t]; [split; reflexivity|].
    simpl in Hn. rewrite replace_from_cons.
    destruct (startswith (c :: t) [96; 96; 96]%N) eqn:E.
    + destruct t as [|c1 [|c2 t3]];
        rewrite ?startswith_cons, ?startswith_empty, ?andb_false_r in E;
        try discriminate.
      apply andb_true_iff in E as [E0 E].
      apply andb_true_iff in E as [E1 E].
      apply N.eqb_eq in E0, E1. subst c c1.
      destruct (IH t3 ltac:(simpl in Hn; lia)) as [A _].
      split; [exact A|].
      rewrite !startswith_cons, !N.eqb_refl. discriminate.
    + destruct (IH t ltac:(lia)) as [A B].
      rewrite startswith_cons in E.
      split.
      * rewrite contains_cons, A, orb_false_r, startswith_cons.
        destruct (96 =? c)%N; [|reflexivity].
        simpl in E |- *. now apply B.
      * rewrite !startswith_cons.
        destruct (96 =? c)%N; [|reflexivity].
        simpl. intro H.
        destruct t as [|a t']; [reflexivity|].
        rewrite startswith_cons, startswith_nil, andb_true_r in H.
        rewrite replace_from_cons, startswith_cons, H. cbn [andb].
        rewrite startswith_cons, H. reflexivity.
Qed.

(** X8: no fence is left in a cleaned reply, wherever it stood in the text
    (inside a JSON string too); the cleaned text has no white space around
    it, and cleaning it again changes nothing. *)
Theorem cleaned_text_holds_no_fence (text : str) :
  contains (cleaned_response_text text) (lit "```") = false
  /\ strip (cleaned_response_text text) = cleaned_response_text text
  /\ cleaned_response_text (cleaned_response_text text)
     = cleaned_response_text text.
Proof.
  assert (A : contains (cleaned_response_text text) (lit "```") = false).
  { unfold cleaned_response_text. apply contains_strip.
    exact (proj1 (replace_fence_clears _ _ (le_n _))). }
  assert (B : strip (cleaned_response_text text)
              = cleaned_response_text text)
    by (unfold cleaned_response_text; apply strip_idem).
  repeat split; trivial.
  now rewrite (cleaned_without_fence _ A).
Qed.

Lemma strip_between_backquotes a b y :
  strip ((96%N :: a) ++ y ++ b ++ [96%N]) = (96%N :: a) ++ y ++ b ++ [96%N].
Proof.
  assert (E : isspace 96%N = false) by reflexivity.
  replace ((96%N :: a) ++ y ++ b ++ [96%N])
    with (96%N :: (a ++ y ++ b) ++ [96%N])
    by (simpl; now rewrite <- !app_assoc).
  unfold strip.
  change (lstrip (96%N :: (a ++ y ++ b) ++ [96%N]))
    with (96%N :: (a ++ y ++ b) ++ [96%N]).
  now rewrite app_comm_cons, (rstrip_snoc _ _ E).
Qed.

Lemma replace_tag_after_body x :
  contains x (lit "```") = false ->
  replace_from (lit "```json") [] 0 (x ++ newline ++ lit "```")
  = x ++ newline ++ lit "```".
Proof.
  intro H.
  assert (H7 : contains x (lit "```json") = false).
  { rewrite fence_tag_split.
    destruct (contains x (lit "```" ++ lit "json")) eqn:E; [|reflexivity].
    apply contains_shorter in E. congruence. }
  rewrite replace_from_absent_upto; [reflexivity|].
  apply absent_upto_separator; [simpl; intuition discriminate|exact H7].
Qed.

Lemma replace_fence_after_body x :
  contains x (lit "```") = false ->
  replace_from (lit "```") [] 0 (x ++ newline ++ lit "```") = x ++ newline.
Proof.
  intro H.
  rewrite replace_from_absent_upto; [reflexivity|].
  apply absent_upto_separator; [simpl; intuition discriminate|exact H].
Qed.

Lemma strip_opened opening x :
  head_is 96 opening = true ->
  strip (opening ++ x ++ newline ++ lit "```")
  = opening ++ x ++ newline ++ lit "```".
Proof.
  destruct opening as [|c a]; [discriminate|].
  intro H. apply N.eqb_eq in H. subst c.
  change (newline ++ lit "```") with ((newline ++ [96; 96]%N) ++ [96%N]).
  apply strip_between_backquotes.
Qed.

Lemma replace_tag s :
  replace s (lit "```json") [] = replace_from (lit "```json") [] 0 s.
Proof. reflexivity. Qed.

Lemma replace_fence s :
  replace s (lit "```") [] = replace_from (lit "```") [] 0 s.
Proof. reflexivity. Qed.

Lemma no_tag_at_bare_fence x :
  head_is 96 x = false -> startswith x (lit "json") = false ->
  absent_upto (lit "```") (x ++ newline ++ lit "```") (lit "```json") = true.
Proof.
  intros Hq Hj.
  assert (S1 : startswith (x ++ newline ++ lit "```") (lit "json") = false).
  { destruct (startswith (x ++ newline ++ lit "```") (lit "json")) eqn:E;
      [|reflexivity].
    apply startswith_before_separator in E; [congruence|].
    simpl. intuition discriminate. }
  change (negb (startswith (lit "```" ++ x ++ newline ++ lit "```")
                  (lit "```json"))
          && (negb (startswith (lit "``" ++ x ++ newline ++ lit "```")
                      (lit "```json"))
              && (negb (startswith (lit "`" ++ x ++ newline ++ lit "```")
                          (lit "```json")) && true)) = true).
  change (startswith (lit "```" ++ x ++ newline ++ lit "```") (lit "```json"))
    with (startswith (x ++ newline ++ lit "```") (lit "json")).
  rewrite S1.
  destruct x as [|c x']; [reflexivity|].
  simpl in Hq.
  change (startswith (lit "``" ++ (c :: x') ++ newline ++ lit "```")
            (lit "```json"))
    with ((96 =? c)%N
          && startswith (x' ++ newline ++ lit "```") (lit "json")).
  change (startswith (lit "`" ++ (c :: x') ++ newline ++ lit "```")
            (lit "```json"))
    with ((96 =? c)%N
          && startswith (x' ++ newline ++ lit "```") (lit "`json")).
  rewrite N.eqb_sym, Hq. reflexivity.
Qed.

(** X9: only the tag [json] is taken off an opening fence.  After
    [```json] the rest of the fenced text comes out trimmed, so a longer
    tag such as [jsonl] leaves its tail; after a bare [```] the text up to
    the closing fence comes out trimmed, another language tag included. *)
Theorem only_the_json_tag_is_removed x :
  contains x (lit "```") = false ->
  cleaned_response_text (lit "```json" ++ x ++ newline ++ lit "```")
  = strip x
  /\ (head_is 96 x = false -> startswith x (lit "json") = false ->
      cleaned_response_text (lit "```" ++ x ++ newline ++ lit "```")
      = strip x).
Proof.
  intro H.
  assert (T : lit "```json" <> []) by discriminate.
  assert (F : lit "```" <> []) by discriminate.
  split.
  - unfold cleaned_response_text.
    rewrite strip_opened by reflexivity.
    rewrite replace_tag, (replace_from_match _ _ _ T), app_nil_l.
    rewrite (replace_tag_after_body _ H).
    rewrite replace_fence, (replace_fence_after_body _ H).
    apply strip_snoc_space. reflexivity.
  - intros Hq Hj. unfold cleaned_response_text.
    rewrite strip_opened by reflexivity.
    rewrite replace_tag.
    rewrite replace_from_absent_upto by (now apply no_tag_at_bare_fence).
    rewrite (replace_tag_after_body _ H).
    rewrite replace_fence, (replace_from_match _ _ _ F), app_nil_l.
    rewrite (replace_fence_after_body _ H).
    apply strip_snoc_space. reflexivity.
Qed.

End FurtherCleaningFacts.

Section FurtherOutcomeFacts.
Variable float : Type.
Variable errors : error_handler.
Variable generate_content : str -> str -> exn + str.
Variable json_dumps : value float -> str.
Variable json_loads : str -> exn + value float.

Local Abbreviation handler :=
  (execute_llm_request errors generate_content json_dumps json_loads).




End FurtherOutcomeFacts.

(** ** Further scenarios *)

Section FurtherScenarioFacts.
Import Scenario.




Lemma dispatch_stops_at_unprintable_call_witness :
  forallb (printable strict) [VStr (lit "a") : value float] = true
  /\ printable strict (VStr [55357%N] : value float) = false
  /\ dispatch strict ([VStr (lit "a")] ++ VStr [55357%N] :: [VStr (lit "b")]) []
     = (inl (UnicodeEncodeError strict
               (lit "Emitting command: "
                  ++ str_text (VStr [55357%N] : value float))),
        [] ++ commands [VStr (lit "a") : value float]).
Proof.
  split; [reflexivity|]. split; [reflexivity|].
  exact (dispatch_stops_at_unprintable_call float strict
           [VStr (lit "a")] [VStr (lit "b")] (VStr [55357%N]) []
           eq_refl eq_refl).
Defined.




Lemma only_the_json_tag_is_removed_witness :
  contains python_tagged_body (lit "```") = false
  /\ cleaned_response_text
       (lit "```json" ++ python_tagged_body ++ newline ++ lit "```")
     = strip python_tagged_body
  /\ cleaned_response_text
       (lit "```" ++ python_tagged_body ++ newline ++ lit "```")
     = strip python_tagged_body.
Proof.
  assert (H : contains python_tagged_body (lit "```") = false)
    by (vm_compute; reflexivity).
  split; [exact H|].
  destruct (only_the_json_tag_is_removed python_tagged_body H) as [A B].
  split; [exact A|].
  apply B; vm_compute; reflexivity.
Defined.

(** A reply fenced as [python] is not parsed: the tag stays in the text
    given to [json.loads], and the handler answers status error. *)
Example python_fence_scenario :
  cleaned_response_text
    (lit "```" ++ python_tagged_body ++ newline ++ lit "```")
  = python_tagged_body
  /\ run (lit "```" ++ python_tagged_body ++ newline ++ lit "```")
     = (inr (VDict [(lit "status", VStr (lit "error"));
                    (lit "message",
                     VStr (lit "Expecting value: line 1 column 1 (char 0)"))]),
        []).
Proof. split; vm_compute; reflexivity. Qed.

End FurtherScenarioFacts.
